(** * RLWE key exchange for BTC/ETH key derivation: a shallow embedding

    The development follows the JavaScript sources.  [rlweBTCETH3.js] and
    the first part of [rlweBTCETH2.js] hold the same key exchange, with
    modular helpers built on the big-integer package; the second part of
    [rlweBTCETH2.js] is a later version with [validateParameters] and
    helpers on native numbers.  The transforms and the three exchange
    operations are the same text in all of them, so they are embedded
    once, over an interface for the helpers.

    JavaScript numbers are modelled by [Z]: every value the program
    computes is an integer far below 2^53, where doubles are exact.
    Arrays live in a store and are passed by reference, so that in-place
    mutation and aliasing are visible.  [Math.floor(Math.random() * q)] is
    an oracle: a sequence of integers fixed in advance. *)

From Stdlib Require Import ZArith Lia List Bool String Ascii Znumtheory DecimalString.
From stdpp Require Import base tactics option list.

Local Open Scope Z_scope.

(** ** JavaScript integer operators *)

Module JS.

(** [ToInt32]: the operand conversion of the bitwise operators. *)
Definition to_int32 (x : Z) : Z :=
  let y := x mod 2 ^ 32 in
  if y <? 2 ^ 31 then y else y - 2 ^ 32.

(** [a << k] *)
Definition shl (a k : Z) : Z := to_int32 (Z.shiftl (to_int32 a) (k mod 32)).

(** [a >> k] *)
Definition shr (a k : Z) : Z := Z.shiftr (to_int32 a) (k mod 32).

(** [a & b] *)
Definition and (a b : Z) : Z := Z.land (to_int32 a) (to_int32 b).

(** [a % b] on integers: the sign of the result is the sign of [a]. *)
Definition rem (a b : Z) : Z := Z.rem a b.

End JS.

(** ** Modular arithmetic helpers

    The sources carry two versions of the four helpers.  The interface
    below is what the transform engine uses ([mod_] is the source's [mod],
    a reserved word here). *)

Class ModArith := {
  mod_ : Z -> Z -> Z;
  mulMod : Z -> Z -> Z -> Z;
  addMod : Z -> Z -> Z -> Z;
  subMod : Z -> Z -> Z -> Z
}.

(** [rlweBTCETH2.js] and [rlweBTCETH3.js], lines 14-28: the helpers go
    through the big-integer package.  Its [mod] "performs division and
    returns the remainder; the sign of the remainder will match the sign of
    the dividend", which on [Z] is [Z.rem]. *)
Module BigInt.

Definition mod_ (x m : Z) : Z := Z.rem x m.
Definition mulMod (a b m : Z) : Z := Z.rem (a * b) m.
Definition addMod (a b m : Z) : Z := Z.rem (a + b) m.
Definition subMod (a b m : Z) : Z := Z.rem (a - b) m.

Definition arith : ModArith :=
  Build_ModArith mod_ mulMod addMod subMod.

End BigInt.

(** The version with [validateParameters] (second part of
    [rlweBTCETH2.js], lines 160-174): native operators. *)
Module Native.

Definition mod_ (x m : Z) : Z := JS.rem (JS.rem x m + m) m.
Definition mulMod (a b m : Z) : Z := mod_ (a * b) m.
Definition addMod (a b m : Z) : Z := mod_ (a + b) m.
Definition subMod (a b m : Z) : Z := mod_ (a - b) m.

Definition arith : ModArith :=
  Build_ModArith mod_ mulMod addMod subMod.

End Native.

(** ** The store and the program monad *)

Definition ref := nat.

(** Arrays are allocated in order and never freed: the store is the list
    of all arrays, a reference is a position in it. *)
Record state := State {
  heap : list (list Z);
  drawn : nat   (** number of calls to [Math.random] so far *)
}.

Inductive fault :=
| Undefined          (** a read outside an array: the value is [undefined] *)
| Dangling           (** a reference that was never allocated *)
| OutOfFuel          (** the loop bound of the model was too small *)
| Thrown (msg : string).   (** [throw new Error(msg)] *)

(** A run ends with a value or stops at a fault; the store is there in
    both cases. *)
Inductive result (A : Type) :=
| Ok (a : A) (s : state)
| Stuck (e : fault) (s : state).
Arguments Ok {A} a s.
Arguments Stuck {A} e s.

Definition state_of {A} (r : result A) : state :=
  match r with Ok _ s => s | Stuck _ s => s end.

Definition M (A : Type) := state -> result A.

Definition ret {A} (a : A) : M A := fun s => Ok a s.

Definition bind {A B} (c : M A) (k : A -> M B) : M B :=
  fun s => match c s with
           | Ok a s' => k a s'
           | Stuck e s' => Stuck e s'
           end.

Definition stop {A} (e : fault) : M A := fun s => Stuck e s.

Definition throw {A} (msg : string) : M A := stop (Thrown msg).

Declare Scope prog_scope.
Delimit Scope prog_scope with prog.
Notation "x <- c ;; k" := (bind c (fun x => k))
  (at level 100, c at next level, right associativity) : prog_scope.
Notation "c ;; k" := (bind c (fun _ => k))
  (at level 100, right associativity) : prog_scope.
Local Open Scope prog_scope.

(** [xs[i]] for an integer [i]. *)
Definition index {A} (xs : list A) (i : Z) : option A :=
  if 0 <=? i then xs !! Z.to_nat i else None.

(** The store with the array behind [r] replaced. *)
Definition set_array (r : ref) (xs : list Z) (s : state) : state :=
  State (<[r := xs]> (heap s)) (drawn s).

(** A new array with the given contents. *)
Definition alloc (xs : list Z) : M ref :=
  fun s => Ok (length (heap s)) (State (heap s ++ [xs]) (drawn s)).

(** The whole array behind a reference. *)
Definition contents (r : ref) : M (list Z) :=
  fun s => match heap s !! r with
           | Some xs => Ok xs s
           | None => Stuck Dangling s
           end.

(** [r[i]] as an expression. *)
Definition load (r : ref) (i : Z) : M Z :=
  xs <- contents r ;;
  match index xs i with
  | Some v => ret v
  | None => stop Undefined
  end.

(** [r[i] = v].  JavaScript grows the array when [i] is past its end; in
    this program every store goes to a slot that was read just before, so
    the model stops there as it does for the read. *)
Definition store (r : ref) (i v : Z) : M unit :=
  xs <- contents r ;;
  match index xs i with
  | Some _ => fun s => Ok tt (set_array r (<[Z.to_nat i := v]> xs) s)
  | None => stop Undefined
  end.

(** [for (init; cond; update) body]: [st] holds the loop variables, [body]
    runs the body and the update. *)
Fixpoint for_loop {V} (fuel : nat) (cond : V -> bool) (body : V -> M V) (st : V) : M V :=
  if cond st then
    match fuel with
    | O => stop OutOfFuel
    | S fuel' => st' <- body st ;; for_loop fuel' cond body st'
    end
  else ret st.

(** [xs.slice()] *)
Definition slice (r : ref) : M ref :=
  xs <- contents r ;; alloc xs.

(** [r.map((val, i) => f val i)]: for each index in order the element is
    read and the callback runs; the results make a new array. *)
Fixpoint map_loop (r : ref) (f : Z -> Z -> M Z) (k : Z) (count : nat) : M (list Z) :=
  match count with
  | O => ret []
  | S count' =>
      val <- load r k ;;
      y <- f val k ;;
      ys <- map_loop r f (k + 1) count' ;;
      ret (y :: ys)
  end.

Definition array_map (r : ref) (f : Z -> Z -> M Z) : M ref :=
  xs <- contents r ;;
  ys <- map_loop r f 0 (length xs) ;;
  alloc ys.

(** [r.forEach((val) => ...)] where the callback updates an object [acc]
    it has captured. *)
Fixpoint forEach_loop {T} (r : ref) (f : T -> Z -> T) (k : Z) (count : nat) (acc : T) : M T :=
  match count with
  | O => ret acc
  | S count' => val <- load r k ;; forEach_loop r f (k + 1) count' (f acc val)
  end.

Definition array_forEach {T} (r : ref) (f : T -> Z -> T) (acc : T) : M T :=
  xs <- contents r ;;
  forEach_loop r f 0 (length xs) acc.

(** [Array.from({ length: len }, () => f)]: [f] runs [len] times. *)
Fixpoint repeat_call (f : M Z) (len : nat) : M (list Z) :=
  match len with
  | O => ret []
  | S len' => y <- f ;; ys <- repeat_call f len' ;; ret (y :: ys)
  end.

Definition array_from (len : Z) (f : M Z) : M ref :=
  ys <- repeat_call f (Z.to_nat len) ;; alloc ys.

(** [[...Array(len).keys()]]: the indices [0 .. len-1]. *)
Definition keys (len : Z) : list Z := map Z.of_nat (seq 0 (Z.to_nat len)).

(** ** SHA-256 (FIPS 180-4), the hash behind [crypto.createHash("sha256")]

    Words are integers in [0, 2^32), bytes integers in [0, 256). *)

Module SHA256.

Definition word (x : Z) : Z := x mod 2 ^ 32.

Definition rotr (k x : Z) : Z :=
  Z.lor (Z.shiftr x k) (word (Z.shiftl x (32 - k))).

Definition Ch (x y z : Z) : Z :=
  Z.lxor (Z.land x y) (Z.land (word (Z.lnot x)) z).

Definition Maj (x y z : Z) : Z :=
  Z.lxor (Z.lxor (Z.land x y) (Z.land x z)) (Z.land y z).

Definition Sum0 (x : Z) : Z := Z.lxor (Z.lxor (rotr 2 x) (rotr 13 x)) (rotr 22 x).
Definition Sum1 (x : Z) : Z := Z.lxor (Z.lxor (rotr 6 x) (rotr 11 x)) (rotr 25 x).
Definition sig0 (x : Z) : Z := Z.lxor (Z.lxor (rotr 7 x) (rotr 18 x)) (Z.shiftr x 3).
Definition sig1 (x : Z) : Z := Z.lxor (Z.lxor (rotr 17 x) (rotr 19 x)) (Z.shiftr x 10).

(** The round constants are the first 32 fractional bits of the cube
    roots of the first 64 primes, the initial hash value those of the
    square roots of the first 8 primes; both are computed here. *)

Definition no_divisor (p : Z) (ds : list Z) : bool :=
  forallb (fun d => negb (p mod d =? 0)) ds.

Definition primes_below (bound : nat) : list Z :=
  fold_left (fun ps c => if no_divisor c ps then ps ++ [c] else ps)
            (map Z.of_nat (seq 2 (bound - 2))) [].

(** Largest [r] below [2^bits] with [r^3 <= x], bit by bit. *)
Fixpoint cube_root (bits : nat) (x r : Z) : Z :=
  match bits with
  | O => r
  | S b =>
      let r' := r + 2 ^ Z.of_nat b in
      cube_root b x (if r' * r' * r' <=? x then r' else r)
  end.

Definition K : list Z :=
  Eval vm_compute in
    map (fun p => word (cube_root 40 (p * 2 ^ 96) 0)) (primes_below 312).

Definition H0 : list Z :=
  Eval vm_compute in
    map (fun p => word (Z.sqrt (p * 2 ^ 64))) (primes_below 20).

(** Big-endian bytes of a number. *)
Fixpoint be_bytes (count : nat) (x : Z) : list Z :=
  match count with
  | O => []
  | S c => (x / 256 ^ Z.of_nat c) mod 256 :: be_bytes c x
  end.

Definition be_word (bs : list Z) : Z :=
  fold_left (fun acc b => acc * 256 + b) bs 0.

Definition pad (msg : list Z) : list Z :=
  let len := Z.of_nat (length msg) in
  msg ++ [128] ++ repeat 0 (Z.to_nat ((55 - len) mod 64)) ++ be_bytes 8 (8 * len).

(** Cuts a list into pieces of [size] elements. *)
Fixpoint chunks {A} (fuel size : nat) (xs : list A) : list (list A) :=
  match fuel, xs with
  | O, _ | _, [] => []
  | S f, _ => take size xs :: chunks f size (drop size xs)
  end.

(** The message schedule, most recent word first. *)
Fixpoint schedule (count : nat) (ws : list Z) : list Z :=
  match count with
  | O => ws
  | S c =>
      let w := word (sig1 (nth 1 ws 0) + nth 6 ws 0 + sig0 (nth 14 ws 0) + nth 15 ws 0) in
      schedule c (w :: ws)
  end.

Record regs := Regs { ra : Z; rb : Z; rc : Z; rd : Z; re : Z; rf : Z; rg : Z; rh : Z }.

Definition round (v : regs) (kw : Z * Z) : regs :=
  let t1 := rh v + Sum1 (re v) + Ch (re v) (rf v) (rg v) + fst kw + snd kw in
  let t2 := Sum0 (ra v) + Maj (ra v) (rb v) (rc v) in
  Regs (word (t1 + t2)) (ra v) (rb v) (rc v) (word (rd v + t1)) (re v) (rf v) (rg v).

Definition compress (h : regs) (block : list Z) : regs :=
  let ws := rev (schedule 48 (rev (map be_word (chunks 16 4 block)))) in
  let v := fold_left round (combine K ws) h in
  Regs (word (ra h + ra v)) (word (rb h + rb v)) (word (rc h + rc v)) (word (rd h + rd v))
       (word (re h + re v)) (word (rf h + rf v)) (word (rg h + rg v)) (word (rh h + rh v)).

Definition initial : regs :=
  Regs (nth 0 H0 0) (nth 1 H0 0) (nth 2 H0 0) (nth 3 H0 0)
       (nth 4 H0 0) (nth 5 H0 0) (nth 6 H0 0) (nth 7 H0 0).

Definition output (h : regs) : list Z :=
  be_bytes 4 (ra h) ++ be_bytes 4 (rb h) ++ be_bytes 4 (rc h) ++ be_bytes 4 (rd h) ++
  be_bytes 4 (re h) ++ be_bytes 4 (rf h) ++ be_bytes 4 (rg h) ++ be_bytes 4 (rh h).

Definition hash (msg : list Z) : list Z :=
  let blocks := chunks (length msg + 72) 64 (pad msg) in
  output (fold_left compress blocks initial).

End SHA256.

(** The [Hash] object of Node's [crypto]: it collects what [update] is
    given and hashes it all at [digest]. *)
Module Hash.
Definition t := list Z.
Definition createHash : t := [].
Definition update (h : t) (data : list Z) : t := h ++ data.
Definition digest (h : t) : list Z := SHA256.hash h.
End Hash.

(** [val.toString()] for an integer: decimal digits, with a minus sign
    when negative. *)
Definition toString (val : Z) : string := NilZero.string_of_int (Z.to_int val).

(** Bytes of an ASCII string: [Buffer.from(str)]. *)
Definition Buffer_from (str : string) : list Z :=
  map (fun c => Z.of_N (N_of_ascii c)) (list_ascii_of_string str).

Definition hex_digit (d : Z) : ascii :=
  nth (Z.to_nat d) (list_ascii_of_string "0123456789abcdef") "0"%char.

(** [buf.toString("hex")] *)
Definition to_hex (bs : list Z) : string :=
  string_of_list_ascii (flat_map (fun b => [hex_digit (b / 16); hex_digit (b mod 16)]) bs).


(** ** Entropy derivation *)

Definition sharedSecretToEntropy (sharedSecret : ref) : M (list Z) :=
  hash <- array_forEach sharedSecret
            (fun hash val => Hash.update hash (Buffer_from (toString val)))
            Hash.createHash ;;
  ret (Hash.digest hash).

(** The decimal strings of the coefficients, one after the other. *)
Definition decimal_text (xs : list Z) : string :=
  fold_right append EmptyString (map toString xs).

(** [generateBTCKeyPair] and [generateETHKeyPair] start alike: the entropy
    becomes the private key, and the version with [validateParameters]
    checks its length.  The public key and the address come from the
    secp256k1, js-sha3 and bitcoinjs-lib packages and are left out; what is
    kept is the [privateKey] field of the result. *)
Definition privateKeyHex (checked : bool) (sharedSecret : ref) : M string :=
  entropy <- sharedSecretToEntropy sharedSecret ;;
  let privateKey := entropy in
  if checked && negb (Z.of_nat (length privateKey) =? 32) then
    throw "Invalid private key length."
  else ret (to_hex privateKey).

(** ** The program, for given constants [n] and [q] *)

(** The twiddle tables are the first two arrays the module creates. *)
Definition W : ref := 0%nat.
Definition W_rev : ref := 1%nat.

Section Program.

Context (n q : Z).
Context {arith : ModArith}.

(** Outcomes of [Math.floor(Math.random() * q)], in the order the
    program draws them. *)
Variable random : nat -> Z.

Definition draw : M Z :=
  fun s => Ok (random (drawn s)) (State (heap s) (S (drawn s))).

Definition W_init : list Z := map (fun i => JS.rem (i + 1) q) (keys n).
Definition W_rev_init : list Z := map (fun i => JS.rem (q - i - 1) q) (keys n).

Definition startup : M unit :=
  alloc W_init ;; alloc W_rev_init ;; ret tt.

(** Every loop of the program runs at most [n] rounds. *)
Definition fuel : nat := Z.to_nat n.

Definition fftForward (x : ref) : M unit :=
  for_loop fuel (fun '(m, step) => 1 <=? m)
    (fun '(m, step) =>
       for_loop fuel (fun '(j, index) => j <? m)
         (fun '(j, index) =>
            for_loop fuel (fun i => i <? n)
              (fun i =>
                 a <- load x i ;; b <- load x (i + m) ;;
                 let t0 := addMod a b q in
                 a' <- load x i ;; b' <- load x (i + m) ;;
                 w <- load W index ;;
                 let t1 := mulMod (subMod a' b' q) w q in
                 store x i t0 ;;
                 store x (i + m) t1 ;;
                 ret (i + JS.shl m 1))
              j ;;
            ret (j + 1, mod_ (index + (n - step)) n))
         (0, 0) ;;
       ret (JS.shr m 1, JS.shl step 1))
    (JS.shr n 1, 1) ;;
  ret tt.

Definition fftBackward (x : ref) : M unit :=
  for_loop fuel (fun '(m, step) => m <? n)
    (fun '(m, step) =>
       for_loop fuel (fun '(j, index) => j <? m)
         (fun '(j, index) =>
            for_loop fuel (fun i => i <? n)
              (fun i =>
                 t0 <- load x i ;;
                 b <- load x (i + m) ;;
                 w <- load W_rev index ;;
                 let t1 := mulMod b w q in
                 store x i (addMod t0 t1 q) ;;
                 store x (i + m) (subMod t0 t1 q) ;;
                 ret (i + JS.shl m 1))
              j ;;
            ret (j + 1, mod_ (index + (n - step)) n))
         (0, 0) ;;
       ret (JS.shl m 1, JS.shr step 1))
    (1, JS.shr n 1) ;;
  ret tt.

(** *** Key exchange *)

Definition generateKeyPair : M (ref * ref) :=
  privateKey <- array_from n draw ;;
  publicKey <- slice privateKey ;;
  fftForward publicKey ;;
  ret (privateKey, publicKey).

Definition encapsulate (publicKey : ref) : M (ref * ref) :=
  randomPoly <- array_from n draw ;;
  ciphertext <- slice randomPoly ;;
  fftForward ciphertext ;;
  sharedSecret <- array_map randomPoly
    (fun val i => p <- load publicKey i ;; ret (mulMod val p q)) ;;
  ret (ciphertext, sharedSecret).

Definition decapsulate (ciphertext privateKey : ref) : M ref :=
  sharedSecret <- array_map ciphertext
    (fun val i => p <- load privateKey i ;; ret (mulMod val p q)) ;;
  fftBackward sharedSecret ;;
  ret sharedSecret.

(** *** Parameter validation (the version with [validateParameters]) *)

Fixpoint isPrime_from (fuel : nat) (num i : Z) : M bool :=
  if i * i <=? num then
    match fuel with
    | O => stop OutOfFuel
    | S fuel' =>
        if JS.rem num i =? 0 then ret false
        else isPrime_from fuel' num (i + 1)
    end
  else ret true.

Definition isPrime (num : Z) : M bool :=
  if num <? 2 then ret false
  else isPrime_from (Z.to_nat num) num 2.

Definition validateParameters : M unit :=
  if (n <=? 0) || negb (JS.and n (n - 1) =? 0) then
    throw "Parameter 'n' must be a power of 2 for FFT compatibility."
  else
    p <- isPrime q ;;
    if negb p then throw "Parameter 'q' must be a prime number."
    else if q <? n then
      throw "Parameter 'q' must be larger than 'n' to prevent overflow."
    else ret tt.

(** *** Main execution

    The result is what the run prints of the two private keys; a
    [Thrown] fault is what the [catch] block reports. *)

(** [rlweBTCETH3.js], lines 131-146, and the first part of
    [rlweBTCETH2.js]. *)
Definition main : M (string * string) :=
  kp <- generateKeyPair ;;
  enc <- encapsulate (snd kp) ;;
  receiverSharedSecret <- decapsulate (fst enc) (fst kp) ;;
  btcKeys <- privateKeyHex false receiverSharedSecret ;;
  ethKeys <- privateKeyHex false receiverSharedSecret ;;
  ret (btcKeys, ethKeys).

(** The version with [validateParameters]. *)
Definition main_validated : M (string * string) :=
  validateParameters ;;
  kp <- generateKeyPair ;;
  enc <- encapsulate (snd kp) ;;
  receiverSharedSecret <- decapsulate (fst enc) (fst kp) ;;
  btcKeys <- privateKeyHex true receiverSharedSecret ;;
  ethKeys <- privateKeyHex true receiverSharedSecret ;;
  ret (btcKeys, ethKeys).

End Program.

(** The state every operation runs in: the tables are in place. *)
Definition tables_ok (n q : Z) (s : state) : Prop :=
  heap s !! W = Some (W_init n q) /\ heap s !! W_rev = Some (W_rev_init n q).

(** The transforms read as functions on the contents of an array: the
    outcome of [fftForward] (or [fftBackward]) on a new array holding
    [xs], in a store that has the tables and nothing else. *)
Definition scratch (n q : Z) (xs : list Z) : state :=
  State [W_init n q; W_rev_init n q; xs] 0.

Definition forward (n q : Z) {arith : ModArith} (xs : list Z) : option (list Z) :=
  match fftForward n q 2%nat (scratch n q xs) with
  | Ok _ s => heap s !! 2%nat
  | Stuck _ _ => None
  end.

Definition backward (n q : Z) {arith : ModArith} (xs : list Z) : option (list Z) :=
  match fftBackward n q 2%nat (scratch n q xs) with
  | Ok _ s => heap s !! 2%nat
  | Stuck _ _ => None
  end.

(** One key exchange, as the main block runs it, followed by a look at the
    two shared secrets. *)
Definition exchange (n q : Z) {arith : ModArith} (random : nat -> Z) : M (list Z * list Z) :=
  kp <- generateKeyPair n q random ;;
  enc <- encapsulate n q random (snd kp) ;;
  receiverSharedSecret <- decapsulate n q (fst enc) (fst kp) ;;
  sender <- contents (snd enc) ;;
  receiver <- contents receiverSharedSecret ;;
  ret (sender, receiver).

(** [fftBackward] after [fftForward]. *)
Definition round_trip (n q : Z) {arith : ModArith} (xs : list Z) : option (list Z) :=
  match forward n q xs with
  | Some ys => backward n q ys
  | None => None
  end.

(** The polynomial with a single coefficient [1], at position [at_]. *)
Definition unit_poly (len at_ : nat) : list Z :=
  repeat 0 at_ ++ [1] ++ repeat 0 (len - at_ - 1)%nat.

(** A random source whose draws make [unit_poly len 0] each time. *)
Definition unit_draws (len : nat) (i : nat) : Z :=
  if (i mod len =? 0)%nat then 1 else 0.

(** The Polynomial invariant of the data model. *)
Definition polynomial (n q : Z) (xs : list Z) : Prop :=
  Z.of_nat (length xs) = n /\ Forall (fun v => 0 <= v < q) xs.

(** The same as a test. *)
Definition is_polynomial (n q : Z) (xs : list Z) : bool :=
  (Z.of_nat (length xs) =? n) && forallb (fun v => (0 <=? v) && (v <? q)) xs.

(** The constants of the sources: [const n = 1024; const q = 40961;]. *)
Module RLWE.
Definition n : Z := 1024.
Definition q : Z := 40961.
End RLWE.

(** ** Vocabulary of the statements *)

(** What the index bookkeeping of the transforms needs from [mod]. *)
Class ModArithLaws (arith : ModArith) := {
  mod_index : forall x m, 0 <= x -> 0 < m -> 0 <= mod_ x m < m
}.

(** The values in [[0, q)]. *)
Definition in_range (q : Z) (v : Z) : Prop := 0 <= v < q.

(** The parameters the validation is meant to let through: [n] a power
    of two, [q] prime and larger than [n]. *)
Definition valid_parameters (n q : Z) : Prop :=
  (exists k, 0 <= k /\ n = 2 ^ k) /\ prime q /\ n < q.

(** The [len] numbers that [Array.from] draws next. *)
Definition sample (random : nat -> Z) (s : state) (len : Z) : list Z :=
  map random (seq (drawn s) (Z.to_nat len)).

(** The pointwise product of the key exchange. *)
Definition products {arith : ModArith} (q : Z) (xs ys : list Z) : list Z :=
  zip_with (fun a b => mulMod a b q) xs ys.

(** An operation that leaves the twiddle tables as it found them, also
    when it stops at a fault. *)
Definition keeps_tables {A} (n q : Z) (c : M A) : Prop :=
  forall s, tables_ok n q s -> tables_ok n q (state_of (c s)).

(** A postcondition that says nothing. *)
Definition any {A} (a : A) : Prop := True.

(** [both c1 c2 s1 s2 Q]: from [s1] and [s2] the two programs end without a
    fault, with the same value, in stores related by [Q].  With [c1 = c2]
    and [s1 = s2] this is plain total correctness. *)
Definition both {A} (c1 c2 : M A) (s1 s2 : state)
    (Q : A -> state -> state -> Prop) : Prop :=
  exists a s1' s2', c1 s1 = Ok a s1' /\ c2 s2 = Ok a s2' /\ Q a s1' s2'.

(** Two programs that keep a relation [R] between their stores. *)
Definition agree (R : state -> state -> Prop) {A} (c1 c2 : M A) (post : A -> Prop) : Prop :=
  forall s1 s2, R s1 s2 -> both c1 c2 s1 s2 (fun a t1 t2 => post a /\ R t1 t2).

(** [frame b c post]: started in a store with at least [b] arrays, [c]
    leaves the first [b] arrays as they are, whether it ends normally or
    at a fault; it never removes an array; a value it returns satisfies
    [post]. *)
Definition frame {A} (b : nat) (c : M A) (post : A -> Prop) : Prop :=
  forall s, (b <= length (heap s))%nat ->
    (length (heap s) <= length (heap (state_of (c s))))%nat /\
    (forall r, (r < b)%nat -> heap (state_of (c s)) !! r = heap s !! r) /\
    (forall a s', c s = Ok a s' -> post a).

(** Two references, both at or after position [b]. *)
Definition fresh_pair (b : nat) (p : ref * ref) : Prop :=
  (b <= fst p)%nat /\ (b <= snd p)%nat.

(** The butterfly width [m] and the [step] of [fftForward], pass by pass,
    for [n = 2 ^ k]. *)
Definition forward_pass (n k : Z) (m step : Z) : Prop :=
  (m = 0 /\ step = n) \/
  (exists a, 0 <= a < k /\ m = 2 ^ a /\ step = 2 ^ (k - 1 - a)).

(** The same for [fftBackward]. *)
Definition backward_pass (k : Z) (m step : Z) : Prop :=
  exists a, 0 <= a <= k /\ m = 2 ^ a /\
    ((a < k /\ step = 2 ^ (k - 1 - a)) \/ (a = k /\ step = 0)).

(** What the two inner loops need to know about a pass. *)
Definition pass (n : Z) (m step : Z) : Prop :=
  0 < m /\ 0 < step /\ 2 * m * step = n.

(** Two arrays with the same contents, neither of them a table, in two
    stores that both have the tables; the first store has [size] arrays
    and has seen [d] draws. *)
Definition same_contents (n q : Z) (Val : Z -> Prop) (size d : nat) (x1 x2 : ref)
    (s1 s2 : state) : Prop :=
  exists ys,
    heap s1 !! x1 = Some ys /\ heap s2 !! x2 = Some ys /\
    Z.of_nat (length ys) = n /\ Forall Val ys /\
    tables_ok n q s1 /\ tables_ok n q s2 /\
    length (heap s1) = size /\ drawn s1 = d.

(** The array behind [x] and the two tables have length [n]. *)
Definition in_shape (n : Z) (x : ref) (s : state) : Prop :=
  forall r, r = x \/ r = W \/ r = W_rev ->
    exists ys, heap s !! r = Some ys /\ Z.of_nat (length ys) = n.

(** What a transform leaves behind: the array holds [ys], the tables are
    in place, no array was created, nothing was drawn, and the arrays
    allocated before [x] are as they were. *)
Definition transformed (n q : Z) (Val : Z -> Prop) (x : ref) (ys : list Z)
    (s s' : state) : Prop :=
  heap s' !! x = Some ys /\ Z.of_nat (length ys) = n /\ Forall Val ys /\
  tables_ok n q s' /\ length (heap s') = length (heap s) /\ drawn s' = drawn s /\
  (forall r, (r < x)%nat -> heap s' !! r = heap s !! r).

(** The store [s0] with nothing but the array behind [x] replaced, by an
    array of length [n]; both runs are in that same store. *)
Definition only_changed (n : Z) (x : ref) (s0 : state) (t1 t2 : state) : Prop :=
  t1 = t2 /\ exists ys, t1 = set_array x ys s0 /\ Z.of_nat (length ys) = n.

(** [a2] is the residue of [a1] in [[0, q)]. *)
Definition reduced (q a1 a2 : Z) : Prop := a2 = a1 mod q.

(** Two programs run side by side from stores related by [R]: both end
    without a fault, in stores related by [R], with values related by
    [V]. *)
Definition related {A} (V : A -> A -> Prop) (R : state -> state -> Prop)
    (c1 c2 : M A) : Prop :=
  forall s1 s2, R s1 s2 ->
    exists a1 a2 t1 t2, c1 s1 = Ok a1 t1 /\ c2 s2 = Ok a2 t2 /\ V a1 a2 /\ R t1 t2.

(** Two stores with the tables, where the array behind [x] in the second
    holds the residues of the array behind [x] in the first. *)
Definition residues (n q : Z) (x : ref) (s1 s2 : state) : Prop :=
  exists ys,
    heap s1 !! x = Some ys /\ heap s2 !! x = Some (map (fun v => v mod q) ys) /\
    Z.of_nat (length ys) = n /\ (2 <= x)%nat /\
    tables_ok n q s1 /\ tables_ok n q s2.

(** * Properties *)

(** ** JavaScript operators on small integers *)

Lemma to_int32_small x : - 2 ^ 31 <= x < 2 ^ 31 -> JS.to_int32 x = x.
Proof.
  intros Hx. unfold JS.to_int32.
  destruct (Z_lt_le_dec x 0) as [Hneg | Hpos].
  - replace (x mod 2 ^ 32) with (x + 2 ^ 32).
    + destruct (Z.ltb_spec (x + 2 ^ 32) (2 ^ 31)); lia.
    + apply Z.mod_unique with (q := -1); lia.
  - rewrite Z.mod_small by lia.
    destruct (Z.ltb_spec x (2 ^ 31)); lia.
Qed.

Lemma shl_1 v : 0 <= v < 2 ^ 30 -> JS.shl v 1 = 2 * v.
Proof.
  intros Hv. unfold JS.shl.
  rewrite (to_int32_small v) by lia.
  change (1 mod 32) with 1. rewrite Z.shiftl_mul_pow2 by lia.
  rewrite to_int32_small; lia.
Qed.

Lemma shr_1 v : 0 <= v < 2 ^ 31 -> JS.shr v 1 = v / 2.
Proof.
  intros Hv. unfold JS.shr.
  rewrite to_int32_small by lia.
  change (1 mod 32) with 1. now rewrite Z.shiftr_div_pow2 by lia.
Qed.

(** ** The modular helpers *)

Lemma rem_nonneg_range x m : 0 <= x -> 0 < m -> 0 <= Z.rem x m < m.
Proof. intros Hx Hm. apply Z.rem_bound_pos; lia. Qed.

Lemma Native_mod_range x m : 0 < m -> 0 <= Native.mod_ x m < m.
Proof.
  intros Hm. unfold Native.mod_, JS.rem.
  assert (Hr : - m < Z.rem x m < m).
  { pose proof (Z.rem_bound_abs x m). lia. }
  apply Z.rem_bound_pos; lia.
Qed.

#[export] Instance BigInt_laws : ModArithLaws BigInt.arith.
Proof. constructor. intros x m Hx Hm. now apply rem_nonneg_range. Qed.

#[export] Instance Native_laws : ModArithLaws Native.arith.
Proof. constructor. intros x m _ Hm. now apply Native_mod_range. Qed.

(** The native helpers agree with the mathematical residue. *)
Lemma Native_mod_spec x m : 0 < m -> Native.mod_ x m = x mod m.
Proof.
  intros Hm. pose proof (Native_mod_range x m Hm) as Hr.
  unfold Native.mod_, JS.rem in *.
  apply Z.mod_unique with (q := x ÷ m + (Z.rem x m + m) ÷ m - 1); [lia |].
  pose proof (Z.quot_rem' x m). pose proof (Z.quot_rem' (Z.rem x m + m) m). lia.
Qed.

(** ** Running programs *)

Lemma any_holds {A} (a : A) : any a.
Proof. exact I. Qed.

Lemma bind_Ok {A B} (c : M A) (k : A -> M B) s a s1 :
  c s = Ok a s1 -> bind c k s = k a s1.
Proof. intros H. unfold bind. now rewrite H. Qed.

Lemma bind_Stuck {A B} (c : M A) (k : A -> M B) s e s1 :
  c s = Stuck e s1 -> bind c k s = Stuck e s1.
Proof. intros H. unfold bind. now rewrite H. Qed.

Lemma index_Some {A} (xs : list A) i :
  0 <= i < Z.of_nat (length xs) -> exists v, index xs i = Some v.
Proof.
  intros Hi. unfold index.
  destruct (Z.leb_spec 0 i); [| lia].
  apply lookup_lt_is_Some. lia.
Qed.

Lemma contents_Ok r s xs : heap s !! r = Some xs -> contents r s = Ok xs s.
Proof. intros Hr. unfold contents. now rewrite Hr. Qed.

Lemma load_Ok r i s xs v :
  heap s !! r = Some xs -> index xs i = Some v -> load r i s = Ok v s.
Proof. intros Hr Hi. unfold load, bind, contents. now rewrite Hr, Hi. Qed.

Lemma store_Ok r i v s xs :
  heap s !! r = Some xs -> 0 <= i < Z.of_nat (length xs) ->
  store r i v s = Ok tt (set_array r (<[Z.to_nat i := v]> xs) s).
Proof.
  intros Hr Hi. unfold store, bind, contents. rewrite Hr.
  destruct (index_Some xs i Hi) as [w Hw]. now rewrite Hw.
Qed.

Lemma heap_set_array_eq r xs s :
  (r < length (heap s))%nat -> heap (set_array r xs s) !! r = Some xs.
Proof. intros Hr. simpl. now apply list_lookup_insert_eq. Qed.

Lemma heap_set_array_ne r r' xs s :
  r <> r' -> heap (set_array r xs s) !! r' = heap s !! r'.
Proof. intros Hr. simpl. now apply list_lookup_insert_ne. Qed.

Lemma lookup_alloc_new (h : list (list Z)) xs : (h ++ [xs]) !! length h = Some xs.
Proof. rewrite lookup_app_r by lia. now rewrite Nat.sub_diag. Qed.

Lemma lookup_alloc_old (h : list (list Z)) xs r :
  (r < length h)%nat -> (h ++ [xs]) !! r = h !! r.
Proof. intros Hr. now apply lookup_app_l. Qed.

(** ** Two runs side by side *)

Lemma both_ret {A} (a : A) s1 s2 (Q : A -> state -> state -> Prop) :
  Q a s1 s2 -> both (ret a) (ret a) s1 s2 Q.
Proof. intros HQ. exists a, s1, s2. auto. Qed.

Lemma both_bind {A B} (c1 c2 : M A) (k1 k2 : A -> M B) s1 s2
    (Q : A -> state -> state -> Prop) (Q' : B -> state -> state -> Prop) :
  both c1 c2 s1 s2 Q ->
  (forall a t1 t2, Q a t1 t2 -> both (k1 a) (k2 a) t1 t2 Q') ->
  both (bind c1 k1) (bind c2 k2) s1 s2 Q'.
Proof.
  intros (a & t1 & t2 & H1 & H2 & HQ) Hk.
  destruct (Hk a t1 t2 HQ) as (b & u1 & u2 & K1 & K2 & HQ').
  exists b, u1, u2. rewrite (bind_Ok _ _ _ _ _ H1), (bind_Ok _ _ _ _ _ H2). auto.
Qed.

Lemma both_mono {A} (c1 c2 : M A) s1 s2 (Q Q' : A -> state -> state -> Prop) :
  both c1 c2 s1 s2 Q ->
  (forall a t1 t2, Q a t1 t2 -> Q' a t1 t2) ->
  both c1 c2 s1 s2 Q'.
Proof. intros (a & t1 & t2 & H1 & H2 & HQ) Himp. exists a, t1, t2. auto. Qed.

(** The loop rule: an invariant on the loop variables and the two stores,
    and a measure that each round decreases and that the fuel covers. *)
Lemma both_for_loop {V} (Inv : V -> state -> state -> Prop) (measure : V -> nat)
    (cond : V -> bool) (body1 body2 : V -> M V) :
  (forall st s1 s2, Inv st s1 s2 -> cond st = true ->
     both (body1 st) (body2 st) s1 s2
          (fun st' t1 t2 => Inv st' t1 t2 /\ (measure st' < measure st)%nat)) ->
  forall fuel st s1 s2, Inv st s1 s2 -> (measure st <= fuel)%nat ->
     both (for_loop fuel cond body1 st) (for_loop fuel cond body2 st) s1 s2
          (fun st' t1 t2 => Inv st' t1 t2 /\ cond st' = false).
Proof.
  intros Hbody fuel. induction fuel as [| fuel IH]; intros st s1 s2 HI Hm.
  - simpl. destruct (cond st) eqn:Hc.
    + destruct (Hbody st s1 s2 HI Hc) as (? & ? & ? & _ & _ & _ & Hlt). lia.
    + now apply both_ret.
  - simpl. destruct (cond st) eqn:Hc.
    + eapply both_bind; [exact (Hbody st s1 s2 HI Hc) |].
      intros st' t1 t2 [HI' Hlt]. apply IH; [exact HI' | lia].
    + now apply both_ret.
Qed.

(** ** The loop nest of the transforms *)

Section LoopNest.

Context (n q k : Z) {arith : ModArith} {laws : ModArithLaws arith}.
Hypothesis Hn : n = 2 ^ k.
Hypothesis Hk : 0 <= k <= 30.

Lemma n_pos : 0 < n.
Proof. subst n. apply Z.pow_pos_nonneg; lia. Qed.

Lemma pow2_bound a : 0 <= a <= k -> 0 < 2 ^ a <= n.
Proof.
  intros Ha. split; [apply Z.pow_pos_nonneg; lia |].
  subst n. apply Z.pow_le_mono_r; lia.
Qed.

Lemma n_bound : n <= 2 ^ 30.
Proof. subst n. apply Z.pow_le_mono_r; lia. Qed.

Lemma pow2_product a : 0 <= a < k -> 2 * 2 ^ a * 2 ^ (k - 1 - a) = n.
Proof.
  intros Ha. subst n.
  replace k with (1 + a + (k - 1 - a)) at 2 by lia.
  rewrite !Z.pow_add_r by lia. reflexivity.
Qed.

Lemma pow2_half a : 1 <= a -> 2 ^ a / 2 = 2 ^ (a - 1).
Proof.
  intros Ha. replace a with (1 + (a - 1)) at 1 by lia.
  rewrite Z.pow_add_r by lia. change (2 ^ 1) with 2.
  rewrite Z.mul_comm. apply Z.div_mul. lia.
Qed.

Lemma pow2_double a : 0 <= a -> 2 * 2 ^ a = 2 ^ (a + 1).
Proof. intros Ha. rewrite Z.pow_add_r by lia. lia. Qed.

Lemma pass_bounds m step : pass n m step -> m < 2 ^ 30 /\ step < 2 ^ 30 /\ step < n.
Proof. pose proof n_bound as Hb. intros (Hm & Hs & Hp). nia. Qed.

Lemma forward_pass_init : forward_pass n k (JS.shr n 1) 1.
Proof.
  pose proof n_bound. pose proof n_pos.
  rewrite shr_1 by lia. unfold forward_pass.
  destruct (Z.eq_dec k 0) as [-> | Hk0].
  - left. subst n. split; reflexivity.
  - right. exists (k - 1). subst n. rewrite pow2_half by lia.
    replace (k - 1 - (k - 1)) with 0 by lia. repeat split; lia.
Qed.

Lemma forward_pass_next m step :
  forward_pass n k m step -> 1 <= m ->
  pass n m step /\ forward_pass n k (JS.shr m 1) (JS.shl step 1).
Proof.
  intros [[-> _] | (a & Ha & -> & ->)] Hm; [lia |].
  pose proof (pow2_product a Ha) as Hprod.
  pose proof (pow2_bound a ltac:(lia)) as Hma.
  pose proof (pow2_bound (k - 1 - a) ltac:(lia)) as Hsa.
  pose proof n_bound as Hnb.
  assert (Hp : pass n (2 ^ a) (2 ^ (k - 1 - a))) by (unfold pass; lia).
  split; [exact Hp |].
  destruct (pass_bounds _ _ Hp) as (? & ? & ?).
  rewrite shr_1, shl_1 by lia. unfold forward_pass.
  destruct (Z.eq_dec a 0) as [-> | Ha0].
  - left. change (2 ^ 0) with 1 in *. split; [reflexivity | lia].
  - right. exists (a - 1). rewrite pow2_half, pow2_double by lia.
    repeat split; try lia. f_equal. lia.
Qed.

Lemma backward_pass_init : backward_pass k 1 (JS.shr n 1).
Proof.
  pose proof n_bound. pose proof n_pos.
  rewrite shr_1 by lia. unfold backward_pass. exists 0.
  split; [lia |]. split; [reflexivity |].
  destruct (Z.eq_dec k 0) as [-> | Hk0].
  - right. subst n. split; reflexivity.
  - left. subst n. rewrite pow2_half by lia.
    split; [lia | f_equal; lia].
Qed.

Lemma backward_pass_next m step :
  backward_pass k m step -> m < n ->
  pass n m step /\ backward_pass k (JS.shl m 1) (JS.shr step 1).
Proof.
  intros (a & Ha & -> & Hstep) Hm.
  destruct Hstep as [[Hak ->] | [-> _]]; [| lia].
  pose proof (pow2_product a ltac:(lia)) as Hprod.
  pose proof (pow2_bound a ltac:(lia)) as Hma.
  pose proof (pow2_bound (k - 1 - a) ltac:(lia)) as Hsa.
  pose proof n_bound as Hnb.
  assert (Hp : pass n (2 ^ a) (2 ^ (k - 1 - a))) by (unfold pass; lia).
  split; [exact Hp |].
  destruct (pass_bounds _ _ Hp) as (? & ? & ?).
  rewrite shr_1, shl_1 by lia. unfold backward_pass.
  exists (a + 1). rewrite pow2_double by lia.
  split; [lia |]. split; [reflexivity |].
  destruct (Z.eq_dec (a + 1) k) as [Hlast | Hmore].
  - right. split; [exact Hlast |].
    replace (k - 1 - a) with 0 by lia. reflexivity.
  - left. split; [lia |]. rewrite pow2_half by lia. f_equal. lia.
Qed.

(** The stores of the two runs are related by [R]; reads of the array
    and of the tables agree and writes keep [R].  A value [v] that is
    written satisfies [Val v]. *)
Variable Val : Z -> Prop.
Hypothesis Val_add : forall a b, Val (addMod a b q).
Hypothesis Val_sub : forall a b, Val (subMod a b q).
Hypothesis Val_mul : forall a b, Val (mulMod a b q).

Variables x1 x2 : ref.
Variable R : state -> state -> Prop.

Hypothesis R_load : forall i, 0 <= i < n -> agree R (load x1 i) (load x2 i) any.
Hypothesis R_load_W : forall i, 0 <= i < n -> agree R (load W i) (load W i) any.
Hypothesis R_load_W_rev :
  forall i, 0 <= i < n -> agree R (load W_rev i) (load W_rev i) any.
Hypothesis R_store :
  forall i v, 0 <= i < n -> Val v -> agree R (store x1 i v) (store x2 i v) any.

Lemma agree_ret {A} (a : A) (post : A -> Prop) : post a -> agree R (ret a) (ret a) post.
Proof. intros Hp s1 s2 HR. apply both_ret. auto. Qed.

Lemma agree_bind {A B} (c1 c2 : M A) (k1 k2 : A -> M B) post post' :
  agree R c1 c2 post ->
  (forall a, post a -> agree R (k1 a) (k2 a) post') ->
  agree R (bind c1 k1) (bind c2 k2) post'.
Proof.
  intros Hc Hcont s1 s2 HR. eapply both_bind; [exact (Hc s1 s2 HR) |].
  intros a t1 t2 [Hp HR']. exact (Hcont a Hp t1 t2 HR').
Qed.

(** The two inner loops of a pass, for any butterfly that stays within
    [i] and [i + m] and moves on by [2 * m]. *)
Lemma columns_agree (m step : Z) (butterfly1 butterfly2 : Z -> Z -> M Z) :
  pass n m step ->
  (forall index i,
      0 <= index < n -> 0 <= i -> i + m < n ->
      agree R (butterfly1 index i) (butterfly2 index i) (fun i' => i' = i + 2 * m)) ->
  agree R
    (for_loop (fuel n) (fun '(j, index) => j <? m)
       (fun '(j, index) =>
          for_loop (fuel n) (fun i => i <? n) (butterfly1 index) j ;;
          ret (j + 1, mod_ (index + (n - step)) n))
       (0, 0))
    (for_loop (fuel n) (fun '(j, index) => j <? m)
       (fun '(j, index) =>
          for_loop (fuel n) (fun i => i <? n) (butterfly2 index) j ;;
          ret (j + 1, mod_ (index + (n - step)) n))
       (0, 0))
    any.
Proof.
  intros Hpass Hfly s1 s2 HR.
  destruct (pass_bounds _ _ Hpass) as (Hm30 & Hs30 & Hsn).
  destruct Hpass as (Hm & Hs & Hprod).
  eapply both_mono.
  - apply (both_for_loop
             (fun '(j, index) t1 t2 => R t1 t2 /\ 0 <= j <= m /\ 0 <= index < n)
             (fun '(j, _) => Z.to_nat (m - j))).
    + intros [j index] t1 t2 (HR' & Hj & Hidx) Hcond.
      apply Z.ltb_lt in Hcond.
      eapply both_bind.
      * apply (both_for_loop
                 (fun i u1 u2 => R u1 u2 /\ exists t, 0 <= t /\ i = j + 2 * m * t)
                 (fun i => Z.to_nat (n - i))).
        -- intros i u1 u2 (HRu & t & Ht & ->) Hi.
           apply Z.ltb_lt in Hi.
           assert (Hlt : t < step) by nia.
           eapply both_mono.
           ++ apply Hfly; [lia | nia | nia | exact HRu].
           ++ intros i' v1 v2 [-> HRv]. split.
              ** split; [exact HRv |]. exists (t + 1). split; lia.
              ** nia.
        -- split; [exact HR' |]. exists 0. split; lia.
        -- unfold fuel. lia.
      * intros i u1 u2 [(HRu & _) _]. apply both_ret.
        split; [| lia]. split; [exact HRu |]. split; [lia |].
        apply mod_index; lia.
    + pose proof n_pos. split; [exact HR |]. split; lia.
    + unfold fuel. nia.
  - intros [j index] t1 t2 [(HR' & _) _]. split; [exact I | exact HR'].
Qed.

Ltac step_agree :=
  repeat (eapply agree_bind;
          [ first [apply R_load | apply R_load_W | apply R_load_W_rev | apply R_store];
            auto; lia
          | intros ? _ ]).

Theorem fftForward_agree : agree R (fftForward n q x1) (fftForward n q x2) any.
Proof.
  intros s1 s2 HR. unfold fftForward.
  eapply both_bind; [| intros ? t1 t2 HR'; apply both_ret; split; [exact I | exact HR']].
  eapply both_mono.
  - apply (both_for_loop
             (fun '(m, step) t1 t2 => R t1 t2 /\ forward_pass n k m step)
             (fun '(m, _) => Z.to_nat m)).
    + intros [m step] t1 t2 [HRt Hfp] Hcond. apply Z.leb_le in Hcond.
      destruct (forward_pass_next m step Hfp Hcond) as [Hpass Hnext].
      destruct (pass_bounds _ _ Hpass) as (Hm30 & Hs30 & Hsn).
      pose proof Hpass as (Hm & Hs & Hprod).
      eapply both_bind.
      * apply (columns_agree m step); [exact Hpass | | exact HRt].
        intros index i Hidx Hi Him. step_agree.
        apply agree_ret. rewrite shl_1 by lia. reflexivity.
      * intros ? u1 u2 [_ HRu]. apply both_ret.
        split; [split; [exact HRu | exact Hnext] |].
        rewrite shr_1 by lia.
        assert (m / 2 < m) by (apply Z.div_lt; lia).
        assert (0 <= m / 2) by (apply Z.div_pos; lia). lia.
    + split; [exact HR | apply forward_pass_init].
    + pose proof n_bound. pose proof n_pos. rewrite shr_1 by lia. unfold fuel.
      assert (n / 2 <= n) by (apply Z.div_le_upper_bound; lia). lia.
  - intros [m step] t1 t2 [(HRt & _) _]. exact HRt.
Qed.

Theorem fftBackward_agree : agree R (fftBackward n q x1) (fftBackward n q x2) any.
Proof.
  intros s1 s2 HR. unfold fftBackward.
  eapply both_bind; [| intros ? t1 t2 HR'; apply both_ret; split; [exact I | exact HR']].
  eapply both_mono.
  - apply (both_for_loop
             (fun '(m, step) t1 t2 => R t1 t2 /\ backward_pass k m step)
             (fun '(m, _) => Z.to_nat (n - m))).
    + intros [m step] t1 t2 [HRt Hbp] Hcond. apply Z.ltb_lt in Hcond.
      destruct (backward_pass_next m step Hbp Hcond) as [Hpass Hnext].
      destruct (pass_bounds _ _ Hpass) as (Hm30 & Hs30 & Hsn).
      pose proof Hpass as (Hm & Hs & Hprod).
      eapply both_bind.
      * apply (columns_agree m step); [exact Hpass | | exact HRt].
        intros index i Hidx Hi Him. step_agree.
        apply agree_ret. rewrite shl_1 by lia. reflexivity.
      * intros ? u1 u2 [_ HRu]. apply both_ret.
        split; [split; [exact HRu | exact Hnext] |].
        rewrite shl_1 by lia. lia.
    + split; [exact HR | apply backward_pass_init].
    + unfold fuel. lia.
  - intros [m step] t1 t2 [(HRt & _) _]. exact HRt.
Qed.

End LoopNest.

(** ** Frames *)

Lemma frame_ret {A} b (a : A) (post : A -> Prop) : post a -> frame b (ret a) post.
Proof.
  intros Hp s Hb. simpl. repeat split; auto.
  intros a' s' [= <- <-]. exact Hp.
Qed.

Lemma frame_stop {A} b e (post : A -> Prop) : frame b (stop e) post.
Proof. intros s Hb. simpl. repeat split; auto. discriminate. Qed.

Lemma frame_bind {A B} b (c : M A) (k : A -> M B) post post' :
  frame b c post ->
  (forall a, post a -> frame b (k a) post') ->
  frame b (bind c k) post'.
Proof.
  intros Hc Hk s Hb. destruct (Hc s Hb) as (Hlen & Hold & Hpost).
  unfold bind. destruct (c s) as [a s1 | e s1] eqn:Hcs; simpl in *.
  - destruct (Hk a (Hpost a s1 eq_refl) s1 ltac:(lia)) as (Hlen' & Hold' & Hpost').
    split; [lia |]. split; [| exact Hpost'].
    intros r Hr. rewrite Hold' by exact Hr. now apply Hold.
  - repeat split; auto. discriminate.
Qed.

Lemma frame_mono {A} b (c : M A) (post post' : A -> Prop) :
  frame b c post -> (forall a, post a -> post' a) -> frame b c post'.
Proof.
  intros Hc Himp s Hb. destruct (Hc s Hb) as (Hlen & Hold & Hpost).
  repeat split; eauto.
Qed.

Lemma frame_alloc b xs : frame b (alloc xs) (fun r => (b <= r)%nat).
Proof.
  intros s Hb. simpl. rewrite length_app. simpl. split; [lia |]. split.
  - intros r Hr. apply lookup_app_l. lia.
  - intros a s' [= <- _]. exact Hb.
Qed.

Lemma frame_contents b r : frame b (contents r) any.
Proof.
  intros s Hb. unfold contents. destruct (heap s !! r); simpl; repeat split; auto.
Qed.

Lemma frame_load b r i : frame b (load r i) any.
Proof.
  unfold load. eapply frame_bind; [apply frame_contents |].
  intros xs _. destruct (index xs i); [now apply frame_ret | apply frame_stop].
Qed.

Lemma frame_store b r i v : (b <= r)%nat -> frame b (store r i v) any.
Proof.
  intros Hr. unfold store. eapply frame_bind; [apply frame_contents |].
  intros xs _. destruct (index xs i); [| apply frame_stop].
  intros s Hb. simpl. rewrite length_insert. split; [lia |]. split.
  - intros r' Hr'. apply list_lookup_insert_ne. lia.
  - intros; exact I.
Qed.

Lemma frame_for_loop {V} b fuel (cond : V -> bool) (body : V -> M V) st :
  (forall st', frame b (body st') any) -> frame b (for_loop fuel cond body st) any.
Proof.
  intros Hbody. revert st. induction fuel as [| fuel IH]; intros st; simpl.
  - destruct (cond st); [apply frame_stop | now apply frame_ret].
  - destruct (cond st); [| now apply frame_ret].
    eapply frame_bind; [apply Hbody | intros st' _; apply IH].
Qed.

Lemma frame_map_loop b r f k count :
  (forall val i, frame b (f val i) any) -> frame b (map_loop r f k count) any.
Proof.
  intros Hf. revert k. induction count as [| count IH]; intros k; simpl.
  - now apply frame_ret.
  - eapply frame_bind; [apply frame_load | intros val _].
    eapply frame_bind; [apply Hf | intros y _].
    eapply frame_bind; [apply IH | intros ys _]. now apply frame_ret.
Qed.

Lemma frame_forEach_loop {T} b r (f : T -> Z -> T) k count acc :
  frame b (forEach_loop r f k count acc) any.
Proof.
  revert k acc. induction count as [| count IH]; intros k acc; simpl.
  - now apply frame_ret.
  - eapply frame_bind; [apply frame_load | intros val _; apply IH].
Qed.

Lemma frame_repeat_call b f len :
  frame b f any -> frame b (repeat_call f len) any.
Proof.
  intros Hf. induction len as [| len IH]; simpl.
  - now apply frame_ret.
  - eapply frame_bind; [exact Hf | intros y _].
    eapply frame_bind; [exact IH | intros ys _]. now apply frame_ret.
Qed.

Lemma frame_slice b r : frame b (slice r) (fun r' => (b <= r')%nat).
Proof.
  unfold slice. eapply frame_bind; [apply frame_contents | intros xs _; apply frame_alloc].
Qed.

Lemma frame_array_map b r f :
  (forall val i, frame b (f val i) any) ->
  frame b (array_map r f) (fun r' => (b <= r')%nat).
Proof.
  intros Hf. unfold array_map.
  eapply frame_bind; [apply frame_contents | intros xs _].
  eapply frame_bind; [now apply frame_map_loop | intros ys _; apply frame_alloc].
Qed.

Lemma frame_array_forEach {T} b r (f : T -> Z -> T) acc :
  frame b (array_forEach r f acc) any.
Proof.
  unfold array_forEach.
  eapply frame_bind; [apply frame_contents | intros xs _; apply frame_forEach_loop].
Qed.

Lemma frame_array_from b len f :
  frame b f any -> frame b (array_from len f) (fun r => (b <= r)%nat).
Proof.
  intros Hf. unfold array_from.
  eapply frame_bind; [now apply frame_repeat_call | intros ys _; apply frame_alloc].
Qed.

Lemma frame_draw b random : frame b (draw random) any.
Proof. intros s Hb. simpl. repeat split; auto. Qed.

Lemma frame_sharedSecretToEntropy b r : frame b (sharedSecretToEntropy r) any.
Proof.
  unfold sharedSecretToEntropy.
  eapply frame_bind; [apply frame_array_forEach | intros h _; now apply frame_ret].
Qed.

Lemma frame_privateKeyHex b checked r : frame b (privateKeyHex checked r) any.
Proof.
  unfold privateKeyHex.
  eapply frame_bind; [apply frame_sharedSecretToEntropy | intros e _].
  destruct (_ && _); [apply frame_stop | now apply frame_ret].
Qed.

Section Frames.

Context (n q : Z) {arith : ModArith}.

Ltac frame_steps :=
  repeat first
    [ eapply frame_bind;
      [ first [apply frame_load | apply frame_store; lia] | intros ? _ ]
    | now apply frame_ret ].

Lemma frame_fftForward b x : (b <= x)%nat -> frame b (fftForward n q x) any.
Proof.
  intros Hx. unfold fftForward.
  eapply frame_bind; [| intros ? _; now apply frame_ret].
  apply frame_for_loop. intros [m step].
  eapply frame_bind; [| intros ? _; now apply frame_ret].
  apply frame_for_loop. intros [j index].
  eapply frame_bind; [| intros ? _; now apply frame_ret].
  apply frame_for_loop. intros i. frame_steps.
Qed.

Lemma frame_fftBackward b x : (b <= x)%nat -> frame b (fftBackward n q x) any.
Proof.
  intros Hx. unfold fftBackward.
  eapply frame_bind; [| intros ? _; now apply frame_ret].
  apply frame_for_loop. intros [m step].
  eapply frame_bind; [| intros ? _; now apply frame_ret].
  apply frame_for_loop. intros [j index].
  eapply frame_bind; [| intros ? _; now apply frame_ret].
  apply frame_for_loop. intros i. frame_steps.
Qed.

Lemma frame_generateKeyPair b random :
  frame b (generateKeyPair n q random) (fresh_pair b).
Proof.
  unfold generateKeyPair.
  eapply frame_bind; [apply frame_array_from, frame_draw | intros sk Hsk].
  eapply frame_bind; [apply frame_slice | intros pk Hpk].
  eapply frame_bind; [now apply frame_fftForward | intros _ _].
  apply frame_ret. split; assumption.
Qed.

Lemma frame_product b r val i :
  frame b (p <- load r i ;; ret (mulMod val p q)) any.
Proof. eapply frame_bind; [apply frame_load | intros p _; now apply frame_ret]. Qed.

Lemma frame_encapsulate b random publicKey :
  frame b (encapsulate n q random publicKey) (fresh_pair b).
Proof.
  unfold encapsulate.
  eapply frame_bind; [apply frame_array_from, frame_draw | intros r Hr].
  eapply frame_bind; [apply frame_slice | intros ct Hct].
  eapply frame_bind; [now apply frame_fftForward | intros _ _].
  eapply frame_bind; [apply frame_array_map; intros; apply frame_product | intros ss Hss].
  apply frame_ret. split; assumption.
Qed.

Lemma frame_decapsulate b ciphertext privateKey :
  frame b (decapsulate n q ciphertext privateKey) (fun r => (b <= r)%nat).
Proof.
  unfold decapsulate.
  eapply frame_bind; [apply frame_array_map; intros; apply frame_product | intros ss Hss].
  eapply frame_bind; [now apply frame_fftBackward | intros _ _].
  now apply frame_ret.
Qed.

Lemma frame_isPrime_from b fuel num i : frame b (isPrime_from fuel num i) any.
Proof.
  revert i. induction fuel as [| fuel IH]; intros i; simpl.
  - destruct (i * i <=? num); [apply frame_stop | exact (frame_ret b _ any I)].
  - destruct (i * i <=? num); [| exact (frame_ret b _ any I)].
    destruct (JS.rem num i =? 0); [exact (frame_ret b _ any I) | apply IH].
Qed.

Lemma frame_validateParameters b : frame b (validateParameters n q) any.
Proof.
  unfold validateParameters. destruct (_ || _); [apply frame_stop |].
  eapply frame_bind.
  - unfold isPrime. destruct (q <? 2); [exact (frame_ret b _ any I) | apply frame_isPrime_from].
  - intros p _. destruct (negb p); [apply frame_stop |].
    destruct (q <? n); [apply frame_stop | exact (frame_ret b _ any I)].
Qed.

Lemma frame_keys b random checked :
  frame b
    (kp <- generateKeyPair n q random ;;
     enc <- encapsulate n q random (snd kp) ;;
     receiverSharedSecret <- decapsulate n q (fst enc) (fst kp) ;;
     btcKeys <- privateKeyHex checked receiverSharedSecret ;;
     ethKeys <- privateKeyHex checked receiverSharedSecret ;;
     ret (btcKeys, ethKeys))
    any.
Proof.
  eapply frame_bind; [apply frame_generateKeyPair | intros kp _].
  eapply frame_bind; [apply frame_encapsulate | intros enc _].
  eapply frame_bind; [apply frame_decapsulate | intros r _].
  eapply frame_bind; [apply frame_privateKeyHex | intros btc _].
  eapply frame_bind; [apply frame_privateKeyHex | intros eth _].
  now apply frame_ret.
Qed.

Lemma frame_main b random : frame b (main n q random) any.
Proof. apply frame_keys. Qed.

Lemma frame_main_validated b random : frame b (main_validated n q random) any.
Proof.
  unfold main_validated.
  eapply frame_bind; [apply frame_validateParameters | intros _ _; apply frame_keys].
Qed.

End Frames.

(** ** The transforms on arrays of length [n] *)

Lemma length_keys len : length (keys len) = Z.to_nat len.
Proof. unfold keys. now rewrite length_map, length_seq. Qed.

Lemma length_W_init n q : 0 <= n -> Z.of_nat (length (W_init n q)) = n.
Proof. intros Hn. unfold W_init. rewrite length_map, length_keys. lia. Qed.

Lemma length_W_rev_init n q : 0 <= n -> Z.of_nat (length (W_rev_init n q)) = n.
Proof. intros Hn. unfold W_rev_init. rewrite length_map, length_keys. lia. Qed.

Lemma tables_allocated n q s : tables_ok n q s -> (2 <= length (heap s))%nat.
Proof. intros [_ Hrev]. apply lookup_lt_Some in Hrev. unfold W_rev in Hrev. lia. Qed.

Section Contents.

Context (n q k : Z) {arith : ModArith} {laws : ModArithLaws arith}.
Hypothesis Hn : n = 2 ^ k.
Hypothesis Hk : 0 <= k <= 30.

Variable Val : Z -> Prop.
Hypothesis Val_add : forall a b, Val (addMod a b q).
Hypothesis Val_sub : forall a b, Val (subMod a b q).
Hypothesis Val_mul : forall a b, Val (mulMod a b q).

Section Pair.

Variables x1 x2 : ref.
Hypothesis x1_array : (2 <= x1)%nat.
Hypothesis x2_array : (2 <= x2)%nat.
Variables size d : nat.

Let R := same_contents n q Val size d x1 x2.

Lemma same_load i :
  0 <= i < n -> agree R (load x1 i) (load x2 i) any.
Proof.
  intros Hi s1 s2 (ys & H1 & H2 & Hlen & Hval & Ht1 & Ht2 & Hsize & Hd).
  destruct (index_Some ys i ltac:(lia)) as [v Hv].
  exists v, s1, s2. rewrite (load_Ok _ _ _ _ _ H1 Hv), (load_Ok _ _ _ _ _ H2 Hv).
  do 2 (split; [reflexivity |]). split; [exact I |]. exists ys. auto 10.
Qed.

Lemma same_load_W i :
  0 <= i < n -> agree R (load W i) (load W i) any.
Proof.
  intros Hi s1 s2 HR. pose proof HR as (ys & _ & _ & _ & _ & [Ht1 _] & [Ht2 _] & _).
  destruct (index_Some (W_init n q) i) as [v Hv].
  { rewrite length_W_init; lia. }
  exists v, s1, s2. rewrite (load_Ok _ _ _ _ _ Ht1 Hv), (load_Ok _ _ _ _ _ Ht2 Hv).
  do 2 (split; [reflexivity |]). split; [exact I | exact HR].
Qed.

Lemma same_load_W_rev i :
  0 <= i < n -> agree R (load W_rev i) (load W_rev i) any.
Proof.
  intros Hi s1 s2 HR. pose proof HR as (ys & _ & _ & _ & _ & [_ Ht1] & [_ Ht2] & _).
  destruct (index_Some (W_rev_init n q) i) as [v Hv].
  { rewrite length_W_rev_init; lia. }
  exists v, s1, s2. rewrite (load_Ok _ _ _ _ _ Ht1 Hv), (load_Ok _ _ _ _ _ Ht2 Hv).
  do 2 (split; [reflexivity |]). split; [exact I | exact HR].
Qed.

Lemma tables_ok_set_array x zs s :
  (2 <= x)%nat -> tables_ok n q s -> tables_ok n q (set_array x zs s).
Proof.
  intros Hx [HW HWr]. split.
  - rewrite heap_set_array_ne; [exact HW | unfold W; lia].
  - rewrite heap_set_array_ne; [exact HWr | unfold W_rev; lia].
Qed.

Lemma same_store i v :
  0 <= i < n -> Val v -> agree R (store x1 i v) (store x2 i v) any.
Proof.
  intros Hi Hv s1 s2 (ys & H1 & H2 & Hlen & Hval & Ht1 & Ht2 & Hsize & Hd).
  exists tt, (set_array x1 (<[Z.to_nat i := v]> ys) s1),
             (set_array x2 (<[Z.to_nat i := v]> ys) s2).
  rewrite (store_Ok _ _ _ _ _ H1), (store_Ok _ _ _ _ _ H2) by lia.
  do 2 (split; [reflexivity |]). split; [exact I |].
  exists (<[Z.to_nat i := v]> ys).
  rewrite !heap_set_array_eq by (eapply lookup_lt_Some; eassumption).
  rewrite length_insert.
  do 2 (split; [reflexivity |]). split; [exact Hlen |].
  split; [now apply Forall_insert |].
  do 2 (split; [apply tables_ok_set_array; assumption |]).
  simpl. rewrite length_insert. auto.
Qed.

Theorem fftForward_same s1 s2 :
  R s1 s2 ->
  both (fftForward n q x1) (fftForward n q x2) s1 s2 (fun _ t1 t2 => R t1 t2).
Proof.
  intros HR. eapply both_mono.
  - eapply fftForward_agree with (k := k) (Val := Val) (R := R);
      eauto using same_load, same_load_W, same_store.
  - intros a t1 t2 [_ HR']. exact HR'.
Qed.

Theorem fftBackward_same s1 s2 :
  R s1 s2 ->
  both (fftBackward n q x1) (fftBackward n q x2) s1 s2 (fun _ t1 t2 => R t1 t2).
Proof.
  intros HR. eapply both_mono.
  - eapply fftBackward_agree with (k := k) (Val := Val) (R := R);
      eauto using same_load, same_load_W_rev, same_store.
  - intros a t1 t2 [_ HR']. exact HR'.
Qed.

End Pair.

End Contents.

(** The same for a single run, whatever the array is: only the lengths of
    the array and of the tables matter, so the array may even be one of
    the tables. *)
Section Shape.

Context (n q k : Z) {arith : ModArith} {laws : ModArithLaws arith}.
Hypothesis Hn : n = 2 ^ k.
Hypothesis Hk : 0 <= k <= 30.
Variable x : ref.

Let R (s1 s2 : state) : Prop := s1 = s2 /\ in_shape n x s1.

Lemma shape_load r i :
  r = x \/ r = W \/ r = W_rev -> 0 <= i < n -> agree R (load r i) (load r i) any.
Proof.
  intros Hr Hi s1 s2 [<- Hs]. destruct (Hs r Hr) as (ys & Hys & Hlen).
  destruct (index_Some ys i ltac:(lia)) as [v Hv].
  exists v, s1, s1. rewrite (load_Ok _ _ _ _ _ Hys Hv).
  do 2 (split; [reflexivity |]). split; [exact I |]. split; [reflexivity | exact Hs].
Qed.

Lemma shape_store i v :
  0 <= i < n -> any v -> agree R (store x i v) (store x i v) any.
Proof.
  intros Hi _ s1 s2 [<- Hs]. destruct (Hs x (or_introl eq_refl)) as (ys & Hys & Hlen).
  exists tt, (set_array x (<[Z.to_nat i := v]> ys) s1),
             (set_array x (<[Z.to_nat i := v]> ys) s1).
  rewrite (store_Ok _ _ _ _ _ Hys) by lia.
  do 2 (split; [reflexivity |]). split; [exact I |]. split; [reflexivity |].
  intros r Hr. destruct (Nat.eq_dec x r) as [<- | Hne].
  - exists (<[Z.to_nat i := v]> ys). rewrite length_insert. split; [| exact Hlen].
    apply heap_set_array_eq. eapply lookup_lt_Some; eassumption.
  - rewrite heap_set_array_ne by exact Hne. now apply Hs.
Qed.

Theorem fftForward_total s :
  in_shape n x s -> exists s', fftForward n q x s = Ok tt s' /\ in_shape n x s'.
Proof.
  intros Hs.
  destruct (fftForward_agree n q k Hn Hk any) with (x1 := x) (x2 := x) (R := R) (s1 := s) (s2 := s)
    as ([] & t1 & t2 & H1 & _ & _ & _ & Ht);
    eauto using shape_load, shape_store; try (intros; exact I).
  split; auto.
Qed.

Theorem fftBackward_total s :
  in_shape n x s -> exists s', fftBackward n q x s = Ok tt s' /\ in_shape n x s'.
Proof.
  intros Hs.
  destruct (fftBackward_agree n q k Hn Hk any) with (x1 := x) (x2 := x) (R := R) (s1 := s) (s2 := s)
    as ([] & t1 & t2 & H1 & _ & _ & _ & Ht);
    eauto using shape_load, shape_store; try (intros; exact I).
  split; auto.
Qed.

End Shape.

(** ** The array operations of the key exchange *)

Lemma repeat_call_draw random len s :
  repeat_call (draw random) len s =
  Ok (map random (seq (drawn s) len)) (State (heap s) (drawn s + len)%nat).
Proof.
  revert s. induction len as [| len IH]; intros s; simpl.
  - unfold ret. destruct s as [h d]. simpl. now rewrite Nat.add_0_r.
  - unfold bind at 1. unfold draw at 1.
    unfold bind at 1. rewrite IH. simpl. unfold ret.
    now rewrite Nat.add_succ_r.
Qed.

Lemma array_from_draw random len s :
  array_from len (draw random) s =
  Ok (length (heap s))
     (State (heap s ++ [sample random s len]) (drawn s + Z.to_nat len)%nat).
Proof.
  unfold array_from. rewrite (bind_Ok _ _ _ _ _ (repeat_call_draw _ _ _)).
  reflexivity.
Qed.

Lemma slice_run r s xs :
  heap s !! r = Some xs ->
  slice r s = Ok (length (heap s)) (State (heap s ++ [xs]) (drawn s)).
Proof. intros Hr. unfold slice, bind, contents. now rewrite Hr. Qed.

Lemma product_run {arith : ModArith} q b s ys i u v :
  heap s !! b = Some ys -> index ys i = Some v ->
  (p <- load b i ;; ret (mulMod u p q)) s = Ok (mulMod u v q) s.
Proof. intros Hb Hi. now rewrite (bind_Ok _ _ _ _ _ (load_Ok _ _ _ _ _ Hb Hi)). Qed.

Lemma map_loop_products {arith : ModArith} q a b s xs ys :
  heap s !! a = Some xs -> heap s !! b = Some ys ->
  forall count k, (k + count <= length xs)%nat -> (k + count <= length ys)%nat ->
  map_loop a (fun val i => p <- load b i ;; ret (mulMod val p q)) (Z.of_nat k) count s =
  Ok (products q (take count (drop k xs)) (take count (drop k ys))) s.
Proof.
  intros Ha Hb count. induction count as [| count IH]; intros k Hx Hy; simpl.
  - reflexivity.
  - destruct (lookup_lt_is_Some_2 xs k ltac:(lia)) as [u Hu].
    destruct (lookup_lt_is_Some_2 ys k ltac:(lia)) as [v Hv].
    assert (Hiu : index xs (Z.of_nat k) = Some u).
    { unfold index. destruct (Z.leb_spec 0 (Z.of_nat k)); [| lia]. now rewrite Nat2Z.id. }
    assert (Hiv : index ys (Z.of_nat k) = Some v).
    { unfold index. destruct (Z.leb_spec 0 (Z.of_nat k)); [| lia]. now rewrite Nat2Z.id. }
    rewrite (bind_Ok _ _ _ _ _ (load_Ok _ _ _ _ _ Ha Hiu)).
    rewrite (bind_Ok _ _ _ _ _ (product_run q b s ys _ u v Hb Hiv)).
    replace (Z.of_nat k + 1) with (Z.of_nat (S k)) by lia.
    rewrite (bind_Ok _ _ _ _ _ (IH (S k) ltac:(lia) ltac:(lia))).
    rewrite (drop_S _ _ _ Hu), (drop_S _ _ _ Hv). reflexivity.
Qed.

Lemma array_map_products {arith : ModArith} q a b s xs ys :
  heap s !! a = Some xs -> heap s !! b = Some ys -> (length xs <= length ys)%nat ->
  array_map a (fun val i => p <- load b i ;; ret (mulMod val p q)) s =
  Ok (length (heap s)) (State (heap s ++ [products q xs ys]) (drawn s)).
Proof.
  intros Ha Hb Hlen. unfold array_map.
  rewrite (bind_Ok _ _ _ _ _ (contents_Ok _ _ _ Ha)).
  rewrite (bind_Ok _ _ _ _ _ (map_loop_products q a b s xs ys Ha Hb (length xs) 0 ltac:(lia) ltac:(lia))).
  rewrite !drop_0, firstn_all.
  unfold products. rewrite zip_with_take_r by lia. reflexivity.
Qed.

Lemma length_products {arith : ModArith} q xs ys :
  length xs = length ys -> length (products q xs ys) = length xs.
Proof. intros Hlen. unfold products. rewrite length_zip_with. lia. Qed.

(** ** What the operations compute *)

Lemma tables_ok_alloc n q s xs d :
  tables_ok n q s -> tables_ok n q (State (heap s ++ [xs]) d).
Proof.
  intros Ht. pose proof (tables_allocated _ _ _ Ht) as Hlen.
  destruct Ht as [HW HWr]. split; simpl.
  - rewrite lookup_alloc_old; [exact HW | unfold W; lia].
  - rewrite lookup_alloc_old; [exact HWr | unfold W_rev; lia].
Qed.

Lemma tables_ok_scratch n q xs : tables_ok n q (scratch n q xs).
Proof. split; reflexivity. Qed.

Section Exchange.

Context (n q k : Z) {arith : ModArith} {laws : ModArithLaws arith}.
Hypothesis Hn : n = 2 ^ k.
Hypothesis Hk : 0 <= k <= 30.

Variable Val : Z -> Prop.
Hypothesis Val_add : forall a b, Val (addMod a b q).
Hypothesis Val_sub : forall a b, Val (subMod a b q).
Hypothesis Val_mul : forall a b, Val (mulMod a b q).

Lemma fftForward_run x s xs :
  tables_ok n q s -> heap s !! x = Some xs -> Z.of_nat (length xs) = n ->
  (2 <= x)%nat -> Forall Val xs ->
  exists ys s',
    fftForward n q x s = Ok tt s' /\ forward n q xs = Some ys /\ transformed n q Val x ys s s'.
Proof.
  intros Ht Hx Hlen H2 Hval.
  destruct (fftForward_same n q k Hn Hk Val Val_add Val_mul x 2%nat H2 (le_n 2)
              (length (heap s)) (drawn s) s (scratch n q xs))
    as ([] & t1 & t2 & Hrun1 & Hrun2 & ys & Hy1 & Hy2 & Hlen' & Hval' & Ht1 & Ht2 & Hsize & Hd).
  { exists xs. split; [exact Hx |]. split; [reflexivity |].
    split; [exact Hlen |]. split; [exact Hval |]. split; [exact Ht |].
    split; [apply tables_ok_scratch |]. split; reflexivity. }
  exists ys, t1. split; [exact Hrun1 |]. split.
  { unfold forward. now rewrite Hrun2. }
  destruct (frame_fftForward n q x x (le_n x) s) as (_ & Hold & _).
  { apply lookup_lt_Some in Hx. lia. }
  rewrite Hrun1 in Hold. simpl in Hold.
  split; [exact Hy1 |]. split; [exact Hlen' |]. split; [exact Hval' |].
  split; [exact Ht1 |]. split; [exact Hsize |]. split; [exact Hd | exact Hold].
Qed.

Lemma fftBackward_run x s xs :
  tables_ok n q s -> heap s !! x = Some xs -> Z.of_nat (length xs) = n ->
  (2 <= x)%nat -> Forall Val xs ->
  exists ys s',
    fftBackward n q x s = Ok tt s' /\ backward n q xs = Some ys /\ transformed n q Val x ys s s'.
Proof.
  intros Ht Hx Hlen H2 Hval.
  destruct (fftBackward_same n q k Hn Hk Val Val_add Val_sub x 2%nat H2 (le_n 2)
              (length (heap s)) (drawn s) s (scratch n q xs))
    as ([] & t1 & t2 & Hrun1 & Hrun2 & ys & Hy1 & Hy2 & Hlen' & Hval' & Ht1 & Ht2 & Hsize & Hd).
  { exists xs. split; [exact Hx |]. split; [reflexivity |].
    split; [exact Hlen |]. split; [exact Hval |]. split; [exact Ht |].
    split; [apply tables_ok_scratch |]. split; reflexivity. }
  exists ys, t1. split; [exact Hrun1 |]. split.
  { unfold backward. now rewrite Hrun2. }
  destruct (frame_fftBackward n q x x (le_n x) s) as (_ & Hold & _).
  { apply lookup_lt_Some in Hx. lia. }
  rewrite Hrun1 in Hold. simpl in Hold.
  split; [exact Hy1 |]. split; [exact Hlen' |]. split; [exact Hval' |].
  split; [exact Ht1 |]. split; [exact Hsize |]. split; [exact Hd | exact Hold].
Qed.

Lemma products_Val xs ys : Forall Val (products q xs ys).
Proof.
  unfold products. revert ys. induction xs as [| a xs IH]; intros [| b ys]; simpl;
    constructor; auto.
Qed.

Lemma sample_Val random s :
  (forall i, Val (random i)) -> Forall Val (sample random s n).
Proof. intros Hr. unfold sample. apply Forall_map, Forall_forall. intros; apply Hr. Qed.

Lemma length_sample random s : Z.of_nat (length (sample random s n)) = n.
Proof.
  pose proof (n_pos n k Hn Hk).
  unfold sample. rewrite length_map, length_seq. lia.
Qed.

Lemma generateKeyPair_run random s :
  tables_ok n q s -> (forall i, Val (random i)) ->
  let privateKey := length (heap s) in
  let publicKey := S (length (heap s)) in
  exists pub s',
    generateKeyPair n q random s = Ok (privateKey, publicKey) s' /\
    heap s' !! privateKey = Some (sample random s n) /\
    forward n q (sample random s n) = Some pub /\
    transformed n q Val publicKey pub
      (State (heap s ++ [sample random s n] ++ [sample random s n])
             (drawn s + Z.to_nat n)%nat) s'.
Proof.
  intros Ht Hrandom sk pk. unfold generateKeyPair.
  rewrite (bind_Ok _ _ _ _ _ (array_from_draw random n s)).
  set (priv := sample random s n).
  set (s1 := State (heap s ++ [priv]) (drawn s + Z.to_nat n)%nat).
  assert (H1 : heap s1 !! sk = Some priv) by apply lookup_alloc_new.
  rewrite (bind_Ok _ _ _ _ _ (slice_run _ _ _ H1)).
  assert (Hpk : length (heap s1) = pk) by (simpl; rewrite length_app; simpl; lia).
  rewrite Hpk. set (s2 := State (heap s1 ++ [priv]) (drawn s1)).
  assert (H2 : heap s2 !! pk = Some priv) by (rewrite <- Hpk; apply lookup_alloc_new).
  pose proof (tables_allocated _ _ _ Ht) as Hsize.
  destruct (fftForward_run pk s2 priv) as (pub & s' & Hrun & Hfwd & Htr);
    [ now do 2 apply tables_ok_alloc | exact H2 | apply length_sample
    | unfold pk; lia | now apply sample_Val |].
  rewrite (bind_Ok _ _ _ _ _ Hrun). unfold ret.
  exists pub, s'. split; [reflexivity |]. split; [| split; [exact Hfwd |]].
  - destruct Htr as (_ & _ & _ & _ & _ & _ & Hold).
    rewrite Hold by (unfold pk, sk; lia).
    simpl. rewrite lookup_alloc_old by (rewrite length_app; simpl; lia). exact H1.
  - unfold s2, s1 in Htr. simpl in Htr. rewrite <- app_assoc in Htr. exact Htr.
Qed.

Lemma encapsulate_run random publicKey s pub :
  tables_ok n q s -> (forall i, Val (random i)) ->
  heap s !! publicKey = Some pub -> n <= Z.of_nat (length pub) ->
  let randomPoly := length (heap s) in
  let ciphertext := S (length (heap s)) in
  let sharedSecret := S (S (length (heap s))) in
  exists c s',
    encapsulate n q random publicKey s = Ok (ciphertext, sharedSecret) s' /\
    forward n q (sample random s n) = Some c /\
    heap s' !! ciphertext = Some c /\
    Z.of_nat (length c) = n /\ Forall Val c /\
    heap s' !! sharedSecret = Some (products q (sample random s n) pub) /\
    heap s' !! randomPoly = Some (sample random s n) /\
    tables_ok n q s' /\
    length (heap s') = (3 + length (heap s))%nat /\
    drawn s' = (drawn s + Z.to_nat n)%nat /\
    (forall r, (r < length (heap s))%nat -> heap s' !! r = heap s !! r).
Proof.
  intros Ht Hrandom Hpub Hlen rp ct ss. unfold encapsulate.
  rewrite (bind_Ok _ _ _ _ _ (array_from_draw random n s)).
  set (r := sample random s n).
  set (s1 := State (heap s ++ [r]) (drawn s + Z.to_nat n)%nat).
  assert (H1 : heap s1 !! rp = Some r) by apply lookup_alloc_new.
  rewrite (bind_Ok _ _ _ _ _ (slice_run _ _ _ H1)).
  assert (Hct : length (heap s1) = ct) by (simpl; rewrite length_app; simpl; lia).
  rewrite Hct. set (s2 := State (heap s1 ++ [r]) (drawn s1)).
  assert (H2 : heap s2 !! ct = Some r) by (rewrite <- Hct; apply lookup_alloc_new).
  pose proof (tables_allocated _ _ _ Ht) as Hsize.
  pose proof (lookup_lt_Some _ _ _ Hpub) as Hpk.
  destruct (fftForward_run ct s2 r) as (c & s3 & Hrun & Hfwd & Htr);
    [ now do 2 apply tables_ok_alloc | exact H2 | apply length_sample
    | unfold ct; lia | now apply sample_Val |].
  rewrite (bind_Ok _ _ _ _ _ Hrun).
  destruct Htr as (Hc & Hclen & Hcval & Ht3 & Hsize3 & Hd3 & Hold).
  assert (Hsize2 : length (heap s2) = (2 + length (heap s))%nat).
  { simpl. rewrite !length_app. simpl. lia. }
  assert (Hkeep : forall x, (x < length (heap s))%nat -> heap s3 !! x = heap s !! x).
  { intros x Hx. rewrite Hold by (unfold ct; lia). simpl.
    rewrite !lookup_alloc_old; [reflexivity | lia | rewrite length_app; simpl; lia]. }
  assert (Hr3 : heap s3 !! rp = Some r).
  { rewrite Hold by (unfold ct, rp; lia). simpl.
    rewrite lookup_alloc_old by (rewrite length_app; simpl; lia). exact H1. }
  assert (Hpub3 : heap s3 !! publicKey = Some pub) by (rewrite Hkeep; assumption).
  assert (Hrlen : (length r <= length pub)%nat).
  { pose proof (length_sample random s) as Hrl. fold r in Hrl. lia. }
  rewrite (bind_Ok _ _ _ _ _ (array_map_products q rp publicKey s3 r pub Hr3 Hpub3 Hrlen)).
  unfold ret. rewrite Hsize3, Hsize2.
  exists c, (State (heap s3 ++ [products q r pub]) (drawn s3)).
  split; [reflexivity |]. split; [exact Hfwd |]. simpl.
  split; [rewrite lookup_alloc_old by (unfold ct; lia); exact Hc |].
  split; [exact Hclen |]. split; [exact Hcval |].
  split; [replace ss with (length (heap s3)) by (unfold ss; lia); apply lookup_alloc_new |].
  split; [rewrite lookup_alloc_old by (unfold rp; lia); exact Hr3 |].
  split; [now apply tables_ok_alloc |].
  split; [rewrite length_app; simpl; lia |].
  split; [rewrite Hd3; reflexivity |].
  intros x Hx. rewrite lookup_alloc_old by lia. now apply Hkeep.
Qed.

Lemma decapsulate_run ciphertext privateKey s cs ks :
  tables_ok n q s ->
  heap s !! ciphertext = Some cs -> heap s !! privateKey = Some ks ->
  Z.of_nat (length cs) = n -> (length cs <= length ks)%nat ->
  let sharedSecret := length (heap s) in
  exists out s',
    decapsulate n q ciphertext privateKey s = Ok sharedSecret s' /\
    backward n q (products q cs ks) = Some out /\
    transformed n q Val sharedSecret out (State (heap s ++ [products q cs ks]) (drawn s)) s'.
Proof.
  intros Ht Hct Hsk Hlen Hle ss. unfold decapsulate.
  rewrite (bind_Ok _ _ _ _ _ (array_map_products q _ _ s cs ks Hct Hsk Hle)).
  set (s1 := State (heap s ++ [products q cs ks]) (drawn s)).
  pose proof (tables_allocated _ _ _ Ht) as Hsize.
  destruct (fftBackward_run ss s1 (products q cs ks)) as (out & s' & Hrun & Hbwd & Htr);
    [ now apply tables_ok_alloc | apply lookup_alloc_new
    | unfold products; rewrite length_zip_with; lia
    | unfold ss; lia | apply products_Val |].
  rewrite (bind_Ok _ _ _ _ _ Hrun). unfold ret.
  exists out, s'. auto.
Qed.

End Exchange.

(** ** The twiddle tables *)

Lemma index_keys len i : 0 <= i < len -> index (keys len) i = Some i.
Proof.
  intros Hi. unfold index, keys. destruct (Z.leb_spec 0 i); [| lia].
  rewrite list_lookup_fmap, lookup_seq_lt by lia. simpl. f_equal. lia.
Qed.

Lemma index_map {A B} (f : A -> B) xs i v :
  index xs i = Some v -> index (map f xs) i = Some (f v).
Proof.
  unfold index. destruct (0 <=? i); [| discriminate].
  intros Hv. change (map f xs) with (f <$> xs). now rewrite list_lookup_fmap, Hv.
Qed.

Lemma W_init_entry n q i :
  0 < q -> 0 <= i < n -> index (W_init n q) i = Some ((i + 1) mod q).
Proof.
  intros Hq Hi. unfold W_init.
  rewrite (index_map _ _ _ _ (index_keys n i Hi)).
  unfold JS.rem. now rewrite Z.rem_mod_nonneg by lia.
Qed.

Lemma W_rev_init_entry n q i :
  n <= q -> 0 <= i < n -> index (W_rev_init n q) i = Some ((q - i - 1) mod q).
Proof.
  intros Hq Hi. unfold W_rev_init.
  rewrite (index_map _ _ _ _ (index_keys n i Hi)).
  unfold JS.rem. now rewrite Z.rem_mod_nonneg by lia.
Qed.

Lemma startup_run n q d :
  startup n q (State [] d) = Ok tt (State [W_init n q; W_rev_init n q] d).
Proof. reflexivity. Qed.

Lemma frame_keeps_tables {A} n q (c : M A) post :
  frame 2 c post -> keeps_tables n q c.
Proof.
  intros Hc s Ht. destruct (Hc s (tables_allocated _ _ _ Ht)) as (_ & Hold & _).
  destruct Ht as [HW HWr]. split.
  - rewrite Hold; [exact HW | unfold W; lia].
  - rewrite Hold; [exact HWr | unfold W_rev; lia].
Qed.

(** C7. The tables hold [W[i] = (i + 1) mod q] and
    [W_rev[i] = (q - i - 1) mod q] for [i] in [[0, n)] and have length [n];
    the start-up code creates them, and no operation of the program
    changes them afterwards: key generation, encapsulation,
    decapsulation, entropy derivation, the transforms on any array that is
    not itself a table, and the main block as a whole. *)
Theorem twiddle_tables (n q : Z) (arith : ModArith) (random : nat -> Z) :
  0 <= n <= q -> 0 < q ->
  (forall d, exists s, startup n q (State [] d) = Ok tt s /\ tables_ok n q s) /\
  Z.of_nat (length (W_init n q)) = n /\
  Z.of_nat (length (W_rev_init n q)) = n /\
  (forall i, 0 <= i < n ->
     index (W_init n q) i = Some ((i + 1) mod q) /\
     index (W_rev_init n q) i = Some ((q - i - 1) mod q)) /\
  keeps_tables n q (generateKeyPair n q random) /\
  (forall publicKey, keeps_tables n q (encapsulate n q random publicKey)) /\
  (forall ciphertext privateKey,
     keeps_tables n q (decapsulate n q ciphertext privateKey)) /\
  (forall sharedSecret, keeps_tables n q (sharedSecretToEntropy sharedSecret)) /\
  (forall x, (2 <= x)%nat ->
     keeps_tables n q (fftForward n q x) /\ keeps_tables n q (fftBackward n q x)) /\
  keeps_tables n q (main n q random) /\
  keeps_tables n q (main_validated n q random).
Proof.
  intros Hn Hq.
  split. { intros d. eexists. split; [apply startup_run | split; reflexivity]. }
  split. { apply length_W_init; lia. }
  split. { apply length_W_rev_init; lia. }
  split. { intros i Hi. split; [apply W_init_entry | apply W_rev_init_entry]; lia. }
  split. { eapply frame_keeps_tables, frame_generateKeyPair. }
  split. { intros pk. eapply frame_keeps_tables, frame_encapsulate. }
  split. { intros ct sk. eapply frame_keeps_tables, frame_decapsulate. }
  split. { intros ss. eapply frame_keeps_tables, frame_sharedSecretToEntropy. }
  split.
  { intros x Hx. split; eapply frame_keeps_tables.
    - now apply frame_fftForward.
    - now apply frame_fftBackward. }
  split; eapply frame_keeps_tables; [apply frame_main | apply frame_main_validated].
Qed.

Lemma twiddle_tables_witness :
  index (W_init RLWE.n RLWE.q) 1023 = Some (1024 mod RLWE.q) /\
  index (W_rev_init RLWE.n RLWE.q) 1023 = Some ((RLWE.q - 1023 - 1) mod RLWE.q).
Proof.
  refine (proj1 (proj2 (proj2 (proj2
    (twiddle_tables RLWE.n RLWE.q BigInt.arith (fun _ => 0) _ _)))) 1023 _);
    unfold RLWE.n, RLWE.q; lia.
Defined.

(** ** The transforms stay in bounds *)

(** C10. On an array of length [n] both transforms end without a fault:
    no read or write falls outside the array or outside a twiddle table
    (the model stops at such an access), and no loop exceeds its bound. *)
Theorem transforms_in_bounds (n q k : Z) (arith : ModArith) (laws : ModArithLaws arith)
    (x : ref) (xs : list Z) (s : state) :
  n = 2 ^ k -> 0 <= k <= 30 ->
  tables_ok n q s ->
  heap s !! x = Some xs -> Z.of_nat (length xs) = n ->
  (exists s', fftForward n q x s = Ok tt s') /\
  (exists s', fftBackward n q x s = Ok tt s').
Proof.
  intros Hn Hk [HW HWr] Hx Hlen.
  assert (Hshape : in_shape n x s).
  { intros r [-> | [-> | ->]].
    - eauto.
    - exists (W_init n q). split; [exact HW | apply length_W_init].
      subst n. apply Z.pow_nonneg. lia.
    - exists (W_rev_init n q). split; [exact HWr | apply length_W_rev_init].
      subst n. apply Z.pow_nonneg. lia. }
  split.
  - destruct (fftForward_total n q k Hn Hk x s Hshape) as (s' & Hrun & _). eauto.
  - destruct (fftBackward_total n q k Hn Hk x s Hshape) as (s' & Hrun & _). eauto.
Qed.

Lemma transforms_in_bounds_witness :
  (exists s', @fftForward RLWE.n RLWE.q BigInt.arith 2%nat
                (scratch RLWE.n RLWE.q (repeat 0 1024)) = Ok tt s') /\
  (exists s', @fftBackward RLWE.n RLWE.q BigInt.arith 2%nat
                (scratch RLWE.n RLWE.q (repeat 0 1024)) = Ok tt s').
Proof.
  apply (transforms_in_bounds RLWE.n RLWE.q 10 BigInt.arith BigInt_laws 2%nat (repeat 0 1024)).
  - reflexivity.
  - lia.
  - apply tables_ok_scratch.
  - reflexivity.
  - reflexivity.
Defined.

(** ** Key generation *)

(** C5. [generateKeyPair] always ends normally.  The private key it
    returns is the sampled polynomial, untouched; the public key is a
    different array and holds what [fftForward] makes of a copy of the
    sample. *)
Theorem generateKeyPair_correct (n q k : Z) (arith : ModArith) (laws : ModArithLaws arith)
    (random : nat -> Z) (s : state) :
  n = 2 ^ k -> 0 <= k <= 30 ->
  tables_ok n q s ->
  exists privateKey publicKey pub s',
    generateKeyPair n q random s = Ok (privateKey, publicKey) s' /\
    privateKey <> publicKey /\
    heap s' !! privateKey = Some (sample random s n) /\
    heap s' !! publicKey = Some pub /\
    forward n q (sample random s n) = Some pub.
Proof.
  intros Hn Hk Ht.
  edestruct generateKeyPair_run with (k := k) (Val := @any Z) (random := random) (s := s)
    as (pub & s' & Hrun & Hpriv & Hfwd & Htr);
    try eassumption; try (intros; apply any_holds).
  exists (length (heap s)), (S (length (heap s))), pub, s'.
  split; [exact Hrun |]. split; [lia |]. split; [exact Hpriv |].
  split; [apply Htr | exact Hfwd].
Qed.

Lemma generateKeyPair_correct_witness :
  exists privateKey publicKey pub s',
    @generateKeyPair RLWE.n RLWE.q BigInt.arith (fun i => Z.of_nat i)
       (State [W_init RLWE.n RLWE.q; W_rev_init RLWE.n RLWE.q] 0) =
      Ok (privateKey, publicKey) s' /\
    privateKey <> publicKey /\
    heap s' !! privateKey = Some (map Z.of_nat (seq 0 1024)) /\
    heap s' !! publicKey = Some pub /\
    @forward RLWE.n RLWE.q BigInt.arith (map Z.of_nat (seq 0 1024)) = Some pub.
Proof.
  apply (generateKeyPair_correct RLWE.n RLWE.q 10 BigInt.arith BigInt_laws
           (fun i => Z.of_nat i)
           (State [W_init RLWE.n RLWE.q; W_rev_init RLWE.n RLWE.q] 0)).
  - reflexivity.
  - lia.
  - split; reflexivity.
Defined.

(** ** Decapsulation *)

(** C9. On arrays of length [n], [decapsulate] ends normally and returns
    a new array; the caller's [ciphertext] and [privateKey], like every
    array that existed before the call, hold what they held. *)
Theorem decapsulate_keeps_inputs (n q k : Z) (arith : ModArith) (laws : ModArithLaws arith)
    (ciphertext privateKey : ref) (cs ks : list Z) (s : state) :
  n = 2 ^ k -> 0 <= k <= 30 ->
  tables_ok n q s ->
  heap s !! ciphertext = Some cs -> heap s !! privateKey = Some ks ->
  Z.of_nat (length cs) = n -> Z.of_nat (length ks) = n ->
  exists sharedSecret s',
    decapsulate n q ciphertext privateKey s = Ok sharedSecret s' /\
    sharedSecret <> ciphertext /\ sharedSecret <> privateKey /\
    heap s' !! ciphertext = Some cs /\ heap s' !! privateKey = Some ks /\
    (forall r, (r < length (heap s))%nat -> heap s' !! r = heap s !! r).
Proof.
  intros Hn Hk Ht Hct Hsk Hclen Hklen.
  edestruct decapsulate_run with (k := k) (Val := @any Z) (s := s)
      (ciphertext := ciphertext) (privateKey := privateKey)
    as (out & s' & Hrun & _ & Htr);
    try eassumption; try (intros; apply any_holds); try lia.
  destruct Htr as (_ & _ & _ & _ & _ & _ & Hold).
  pose proof (lookup_lt_Some _ _ _ Hct) as Hc.
  pose proof (lookup_lt_Some _ _ _ Hsk) as Hp.
  assert (Hkeep : forall r, (r < length (heap s))%nat -> heap s' !! r = heap s !! r).
  { intros r Hr. rewrite Hold by exact Hr. simpl. now apply lookup_alloc_old. }
  exists (length (heap s)), s'.
  split; [exact Hrun |]. split; [lia |]. split; [lia |].
  split; [rewrite Hkeep; assumption |]. split; [rewrite Hkeep; assumption | exact Hkeep].
Qed.

Lemma decapsulate_keeps_inputs_witness :
  exists sharedSecret s',
    @decapsulate RLWE.n RLWE.q BigInt.arith 2%nat 3%nat
       (State [W_init RLWE.n RLWE.q; W_rev_init RLWE.n RLWE.q;
               repeat 1 1024; repeat 2 1024] 0) = Ok sharedSecret s' /\
    sharedSecret <> 2%nat /\ sharedSecret <> 3%nat /\
    heap s' !! 2%nat = Some (repeat 1 1024) /\
    heap s' !! 3%nat = Some (repeat 2 1024) /\
    (forall r, (r < 4)%nat ->
       heap s' !! r =
       [W_init RLWE.n RLWE.q; W_rev_init RLWE.n RLWE.q; repeat 1 1024; repeat 2 1024] !! r).
Proof.
  apply (decapsulate_keeps_inputs RLWE.n RLWE.q 10 BigInt.arith BigInt_laws
           2%nat 3%nat (repeat 1 1024) (repeat 2 1024)
           (State [W_init RLWE.n RLWE.q; W_rev_init RLWE.n RLWE.q;
                   repeat 1 1024; repeat 2 1024] 0)).
  - reflexivity.
  - lia.
  - split; reflexivity.
  - reflexivity.
  - reflexivity.
  - reflexivity.
  - reflexivity.
Defined.

(** ** Entropy derivation *)

Lemma length_be_bytes count x : length (SHA256.be_bytes count x) = count.
Proof. induction count as [| count IH]; simpl; [reflexivity | now rewrite IH]. Qed.

Lemma be_bytes_range count x : Forall (fun b => 0 <= b < 256) (SHA256.be_bytes count x).
Proof.
  induction count as [| count IH]; simpl; constructor; [| exact IH].
  apply Z.mod_pos_bound. lia.
Qed.

Lemma length_hash msg : length (SHA256.hash msg) = 32%nat.
Proof.
  unfold SHA256.hash, SHA256.output.
  now rewrite !length_app, !length_be_bytes.
Qed.

Lemma hash_range msg : Forall (fun b => 0 <= b < 256) (SHA256.hash msg).
Proof.
  unfold SHA256.hash, SHA256.output.
  repeat (apply Forall_app; split); apply be_bytes_range.
Qed.

(** The model of SHA-256 on the test vectors of the standard. *)
Example sha256_abc :
  to_hex (SHA256.hash (Buffer_from "abc")) =
  "ba7816bf8f01cfea414140de5dae2223b00361a396177a9cb410ff61f20015ad"%string.
Proof. vm_compute. reflexivity. Qed.

Example sha256_empty :
  to_hex (SHA256.hash (Buffer_from "")) =
  "e3b0c44298fc1c149afbf4c8996fb92427ae41e4649b934ca495991b7852b855"%string.
Proof. vm_compute. reflexivity. Qed.

Example sha256_two_blocks :
  to_hex (SHA256.hash
            (Buffer_from "abcdbcdecdefdefgefghfghighijhijkijkljklmklmnlmnomnopnopq")) =
  "248d6a61d20638b8e5c026930c3e6039a33ce45964ff2167f6ecedd419db06c1"%string.
Proof. vm_compute. reflexivity. Qed.

Example toString_values :
  toString 0 = "0"%string /\ toString 40960 = "40960"%string /\
  toString (-15) = "-15"%string.
Proof. repeat split. Qed.

Lemma Buffer_from_append (a b : string) :
  Buffer_from (a ++ b)%string = Buffer_from a ++ Buffer_from b.
Proof.
  unfold Buffer_from. induction a as [| c a IH]; simpl; [reflexivity | now rewrite IH].
Qed.

Lemma forEach_loop_run {T} r (f : T -> Z -> T) s xs :
  heap s !! r = Some xs ->
  forall count k acc, (k + count <= length xs)%nat ->
  forEach_loop r f (Z.of_nat k) count acc s =
  Ok (fold_left f (take count (drop k xs)) acc) s.
Proof.
  intros Hr count. induction count as [| count IH]; intros k acc Hk; simpl.
  - reflexivity.
  - destruct (lookup_lt_is_Some_2 xs k ltac:(lia)) as [v Hv].
    assert (Hi : index xs (Z.of_nat k) = Some v).
    { unfold index. destruct (Z.leb_spec 0 (Z.of_nat k)); [| lia]. now rewrite Nat2Z.id. }
    rewrite (bind_Ok _ _ _ _ _ (load_Ok _ _ _ _ _ Hr Hi)).
    replace (Z.of_nat k + 1) with (Z.of_nat (S k)) by lia.
    rewrite IH by lia. now rewrite (drop_S _ _ _ Hv).
Qed.

Lemma array_forEach_run {T} r (f : T -> Z -> T) acc s xs :
  heap s !! r = Some xs -> array_forEach r f acc s = Ok (fold_left f xs acc) s.
Proof.
  intros Hr. unfold array_forEach.
  rewrite (bind_Ok _ _ _ _ _ (contents_Ok _ _ _ Hr)).
  rewrite (forEach_loop_run _ _ _ _ Hr (length xs) 0 _ ltac:(lia)).
  now rewrite drop_0, firstn_all.
Qed.

Lemma updates_text xs acc :
  fold_left (fun hash val => Hash.update hash (Buffer_from (toString val))) xs acc =
  acc ++ Buffer_from (decimal_text xs).
Proof.
  revert acc. induction xs as [| v xs IH]; intros acc; simpl.
  - now rewrite app_nil_r.
  - rewrite IH. unfold Hash.update.
    change (decimal_text (v :: xs)) with (toString v ++ decimal_text xs)%string.
    now rewrite Buffer_from_append, app_assoc.
Qed.

Lemma sharedSecretToEntropy_run r xs s :
  heap s !! r = Some xs ->
  sharedSecretToEntropy r s = Ok (SHA256.hash (Buffer_from (decimal_text xs))) s /\
  Z.of_nat (length (SHA256.hash (Buffer_from (decimal_text xs)))) = 32.
Proof.
  intros Hr. split; [| now rewrite length_hash].
  unfold sharedSecretToEntropy.
  rewrite (bind_Ok _ _ _ _ _ (array_forEach_run _ _ _ _ _ Hr)).
  now rewrite updates_text.
Qed.

(** C8. The entropy is the SHA-256 digest of the decimal strings of the
    coefficients, concatenated in order.  It depends on nothing but the
    sequence of coefficients: two arrays with the same coefficients, in
    whatever stores, give the same digest; the stores are left as they
    were; and the digest has exactly 32 bytes. *)
Theorem sharedSecretToEntropy_spec (r1 r2 : ref) (xs : list Z) (s1 s2 : state) :
  heap s1 !! r1 = Some xs -> heap s2 !! r2 = Some xs ->
  exists digest,
    sharedSecretToEntropy r1 s1 = Ok digest s1 /\
    sharedSecretToEntropy r2 s2 = Ok digest s2 /\
    digest = SHA256.hash (Buffer_from (decimal_text xs)) /\
    length digest = 32%nat /\
    Forall (fun b => 0 <= b < 256) digest.
Proof.
  intros H1 H2. exists (SHA256.hash (Buffer_from (decimal_text xs))).
  split; [now apply sharedSecretToEntropy_run |].
  split; [now apply sharedSecretToEntropy_run |].
  split; [reflexivity |]. split; [apply length_hash | apply hash_range].
Qed.

Lemma sharedSecretToEntropy_spec_witness :
  exists digest,
    sharedSecretToEntropy 0%nat (State [[1; 23; 40960]] 0) =
      Ok digest (State [[1; 23; 40960]] 0) /\
    sharedSecretToEntropy 1%nat (State [[]; [1; 23; 40960]] 5) =
      Ok digest (State [[]; [1; 23; 40960]] 5) /\
    digest = SHA256.hash (Buffer_from "12340960") /\
    length digest = 32%nat /\
    Forall (fun b => 0 <= b < 256) digest.
Proof.
  apply (sharedSecretToEntropy_spec 0%nat 1%nat [1; 23; 40960]
           (State [[1; 23; 40960]] 0) (State [[]; [1; 23; 40960]] 5)).
  - reflexivity.
  - reflexivity.
Defined.

(** ** Where the sources fall short *)

Lemma is_polynomial_spec n q xs : is_polynomial n q xs = true <-> polynomial n q xs.
Proof.
  unfold is_polynomial, polynomial. rewrite andb_true_iff, Z.eqb_eq, forallb_forall.
  rewrite Forall_forall. split; intros [Hlen Hall]; (split; [exact Hlen |]); intros v Hv.
  - apply list_elem_of_In in Hv. specialize (Hall v Hv).
    apply andb_true_iff in Hall as [H0 Hq]. apply Z.leb_le in H0. apply Z.ltb_lt in Hq. lia.
  - apply list_elem_of_In in Hv. specialize (Hall v Hv).
    apply andb_true_iff. split; [apply Z.leb_le | apply Z.ltb_lt]; lia.
Qed.

(** C3, on [rlweBTCETH3.js] and the first part of [rlweBTCETH2.js], with
    [q = 40961]: [subMod(1, 2, q)] is [-1], outside [[0, q)], and
    [mod(-1, n)] is [-1]: the big-integer remainder keeps the sign of the
    dividend. *)
Theorem BigInt_helpers_not_closed :
  in_range RLWE.q 1 /\ in_range RLWE.q 2 /\
  BigInt.subMod 1 2 RLWE.q = -1 /\ ~ in_range RLWE.q (BigInt.subMod 1 2 RLWE.q) /\
  BigInt.mod_ (-1) RLWE.n = -1 /\ ~ in_range RLWE.n (BigInt.mod_ (-1) RLWE.n).
Proof.
  unfold in_range, RLWE.q, RLWE.n.
  split; [lia |]. split; [lia |].
  split; [reflexivity |]. split; [vm_compute; intros [Hlow _]; now apply Hlow |].
  split; [reflexivity |]. vm_compute. intros [Hlow _]. now apply Hlow.
Qed.

(** The helpers of the version with [validateParameters] are closed, and
    its [mod] is the mathematical residue for every integer. *)
Theorem Native_helpers_closed (a b q : Z) :
  0 < q ->
  0 <= Native.addMod a b q < q /\
  0 <= Native.subMod a b q < q /\
  0 <= Native.mulMod a b q < q /\
  (forall x m, 0 < m -> 0 <= Native.mod_ x m < m /\ Native.mod_ x m = x mod m).
Proof.
  intros Hq. unfold Native.addMod, Native.subMod, Native.mulMod.
  repeat split; try (apply Native_mod_range; lia).
  now apply Native_mod_spec.
Qed.

(** C4, on [rlweBTCETH3.js]: [fftForward] takes the polynomial with a
    single [1] at position 512 to an array with [-1] at position 512. *)
Theorem BigInt_forward_leaves_range :
  polynomial RLWE.n RLWE.q (unit_poly 1024 512) /\
  exists ys,
    @forward RLWE.n RLWE.q BigInt.arith (unit_poly 1024 512) = Some ys /\
    index ys 512 = Some (-1) /\
    ~ polynomial RLWE.n RLWE.q ys.
Proof.
  split; [apply is_polynomial_spec; vm_compute; reflexivity |].
  eexists. split; [vm_compute; reflexivity |].
  split; [vm_compute; reflexivity |].
  intros Hp. apply is_polynomial_spec in Hp. vm_compute in Hp. discriminate.
Qed.

(** C2: [fftBackward] does not undo [fftForward].  The polynomial
    [1, 0, ..., 0] goes to [1, 1, ..., 1] and from there to an array that
    starts with [0], in both versions of the helpers. *)
Theorem round_trip_fails :
  (exists zs, @round_trip RLWE.n RLWE.q BigInt.arith (unit_poly 1024 0) = Some zs /\
              index (unit_poly 1024 0) 0 = Some 1 /\ index zs 0 = Some 0) /\
  (exists zs, @round_trip RLWE.n RLWE.q Native.arith (unit_poly 1024 0) = Some zs /\
              index (unit_poly 1024 0) 0 = Some 1 /\ index zs 0 = Some 0).
Proof.
  split; eexists; (split; [vm_compute; reflexivity | split; vm_compute; reflexivity]).
Qed.

(** C1: sender and receiver end with different shared secrets.  With the
    private key and the encapsulation randomness both [1, 0, ..., 0], the
    sender has [1, 0, ..., 0] and the receiver [1, 1, ..., 1], in both
    versions of the helpers. *)
Theorem exchange_disagrees :
  (exists sender receiver s,
     (startup RLWE.n RLWE.q ;; @exchange RLWE.n RLWE.q BigInt.arith (unit_draws 1024))
       (State [] 0) = Ok (sender, receiver) s /\
     index sender 1 = Some 0 /\ index receiver 1 = Some 1) /\
  (exists sender receiver s,
     (startup RLWE.n RLWE.q ;; @exchange RLWE.n RLWE.q Native.arith (unit_draws 1024))
       (State [] 0) = Ok (sender, receiver) s /\
     index sender 1 = Some 0 /\ index receiver 1 = Some 1).
Proof.
  split; do 3 eexists; (split; [vm_compute; reflexivity | split; vm_compute; reflexivity]).
Qed.

(** The same on the small parameters [n = 4], [q = 17], with the private
    key [1, 2, 3, 4] and the randomness [5, 6, 7, 8] (native helpers). *)
Example forward_4_17 :
  @forward 4 17 Native.arith [1; 2; 3; 4] = Some [10; 15; 7; 6].
Proof. reflexivity. Qed.

Example round_trip_4_17 :
  @round_trip 4 17 Native.arith [1; 2; 3; 4] = Some [11; 7; 13; 9].
Proof. reflexivity. Qed.

Example exchange_4_17 :
  exists s,
    (startup 4 17 ;; @exchange 4 17 Native.arith (fun i => Z.of_nat i + 1))
      (State [] 0) = Ok ([16; 5; 15; 14], [16; 12; 10; 15]) s.
Proof. eexists. vm_compute. reflexivity. Qed.

Example validateParameters_rejects (s : state) :
  (exists msg, validateParameters 6 17 s = Stuck (Thrown msg) s) /\
  (exists msg, validateParameters 4 9 s = Stuck (Thrown msg) s) /\
  (exists msg, validateParameters 4 3 s = Stuck (Thrown msg) s) /\
  validateParameters RLWE.n RLWE.q s = Ok tt s.
Proof.
  do 3 (split; [eexists; reflexivity |]). vm_compute. reflexivity.
Qed.

(** C6: with [n = 2] and [q = 2] the validation passes, although [q] does
    not exceed [n]: the test is [q < n]. *)
Theorem validateParameters_accepts_q_equal_n (s : state) :
  validateParameters 2 2 s = Ok tt s /\ ~ valid_parameters 2 2.
Proof.
  split; [reflexivity |].
  intros (_ & _ & Hlt). lia.
Qed.

(** ** The Polynomial invariant in the version with native helpers *)

(** X14. In the version with [validateParameters] every operation keeps the
    invariant: what [fftForward], [fftBackward], [generateKeyPair],
    [encapsulate] and [decapsulate] produce has length [n] and elements in
    [[0, q)], given polynomial inputs and draws in [[0, q)]. *)
Theorem Native_preserves_polynomial (n q k : Z) (random : nat -> Z) (s : state) :
  n = 2 ^ k -> 0 <= k <= 30 -> 0 < q ->
  tables_ok n q s -> (forall i, 0 <= random i < q) ->
  (forall x xs, (2 <= x)%nat -> heap s !! x = Some xs -> polynomial n q xs ->
     (exists ys s', @fftForward n q Native.arith x s = Ok tt s' /\
                    heap s' !! x = Some ys /\ polynomial n q ys) /\
     (exists ys s', @fftBackward n q Native.arith x s = Ok tt s' /\
                    heap s' !! x = Some ys /\ polynomial n q ys)) /\
  (exists privateKey publicKey priv pub s',
     @generateKeyPair n q Native.arith random s = Ok (privateKey, publicKey) s' /\
     heap s' !! privateKey = Some priv /\ heap s' !! publicKey = Some pub /\
     polynomial n q priv /\ polynomial n q pub) /\
  (forall publicKey pub, heap s !! publicKey = Some pub -> polynomial n q pub ->
     exists ciphertext sharedSecret c sec s',
       @encapsulate n q Native.arith random publicKey s = Ok (ciphertext, sharedSecret) s' /\
       heap s' !! ciphertext = Some c /\ heap s' !! sharedSecret = Some sec /\
       polynomial n q c /\ polynomial n q sec) /\
  (forall ciphertext privateKey cs ks,
     heap s !! ciphertext = Some cs -> heap s !! privateKey = Some ks ->
     polynomial n q cs -> polynomial n q ks ->
     exists sharedSecret out s',
       @decapsulate n q Native.arith ciphertext privateKey s = Ok sharedSecret s' /\
       heap s' !! sharedSecret = Some out /\ polynomial n q out).
Proof.
  intros Hn Hk Hq Ht Hrandom.
  assert (Hadd : forall a b, in_range q (@addMod Native.arith a b q))
    by (intros; apply Native_mod_range; lia).
  assert (Hsub : forall a b, in_range q (@subMod Native.arith a b q))
    by (intros; apply Native_mod_range; lia).
  assert (Hmul : forall a b, in_range q (@mulMod Native.arith a b q))
    by (intros; apply Native_mod_range; lia).
  split; [| split; [| split]].
  - intros x xs Hx Hxs [Hlen Hval]. split.
    + edestruct @fftForward_run with (arith := Native.arith) (k := k) (Val := in_range q)
        (x := x) (s := s) as (ys & s' & Hrun & _ & Htr); try eassumption; try apply _.
      exists ys, s'. split; [exact Hrun |]. split; [apply Htr |]. split; apply Htr.
    + edestruct @fftBackward_run with (arith := Native.arith) (k := k) (Val := in_range q)
        (x := x) (s := s) as (ys & s' & Hrun & _ & Htr); try eassumption; try apply _.
      exists ys, s'. split; [exact Hrun |]. split; [apply Htr |]. split; apply Htr.
  - edestruct @generateKeyPair_run with (arith := Native.arith) (k := k) (Val := in_range q)
      (random := random) (s := s) as (pub & s' & Hrun & Hpriv & _ & Htr);
      try eassumption; try apply _.
    exists (length (heap s)), (S (length (heap s))), (sample random s n), pub, s'.
    split; [exact Hrun |]. split; [exact Hpriv |]. split; [apply Htr |]. split.
    + split; [now apply (length_sample n k) | now apply sample_Val].
    + split; apply Htr.
  - intros pk pub Hpk [Hlen Hval].
    edestruct @encapsulate_run with (arith := Native.arith) (k := k) (Val := in_range q)
      (random := random) (s := s) (publicKey := pk)
      as (c & s' & Hrun & _ & Hc & Hclen & Hcval & Hsec & _);
      try eassumption; try apply _; try lia.
    exists (S (length (heap s))), (S (S (length (heap s)))), c,
           (@products Native.arith q (sample random s n) pub), s'.
    split; [exact Hrun |]. split; [exact Hc |]. split; [exact Hsec |].
    split; [split; assumption |]. split; [| apply products_Val; exact Hmul].
    pose proof (length_sample n k Hn Hk random s) as Hs.
    rewrite (@length_products Native.arith); lia.
  - intros ct sk cs ks Hct Hsk [Hclen _] [Hklen _].
    edestruct @decapsulate_run with (arith := Native.arith) (k := k) (Val := in_range q)
      (s := s) (ciphertext := ct) (privateKey := sk) as (out & s' & Hrun & _ & Htr);
      try eassumption; try apply _; try lia.
    exists (length (heap s)), out, s'.
    split; [exact Hrun |]. split; [apply Htr |]. split; apply Htr.
Qed.

(** ** Parameter validation *)

Lemma land_pred_pow2 n :
  0 < n -> (Z.land n (n - 1) = 0 <-> exists k, 0 <= k /\ n = 2 ^ k).
Proof.
  intros Hn. split.
  - intros Hland. exists (Z.log2 n). split; [apply Z.log2_nonneg |].
    destruct (Z.log2_spec n Hn) as [Hlow Hhigh].
    destruct (Z.eq_dec n (2 ^ Z.log2 n)) as [Heq | Hne]; [exact Heq | exfalso].
    assert (Hlog : Z.log2 (n - 1) = Z.log2 n).
    { apply Z.log2_unique; [apply Z.log2_nonneg | lia]. }
    assert (Hbit : Z.testbit (Z.land n (n - 1)) (Z.log2 n) = true).
    { rewrite Z.land_spec, Z.bit_log2 by lia.
      rewrite <- Hlog. rewrite Z.bit_log2; [reflexivity |].
      pose proof (Z.pow_pos_nonneg 2 (Z.log2 n) ltac:(lia) (Z.log2_nonneg n)). lia. }
    rewrite Hland, Z.bits_0 in Hbit. discriminate.
  - intros (k & Hk & ->).
    replace (2 ^ k - 1) with (Z.ones k) by (rewrite Z.ones_equiv; lia).
    rewrite Z.land_ones by lia. apply Z.mod_same.
    pose proof (Z.pow_pos_nonneg 2 k ltac:(lia) Hk). lia.
Qed.

Lemma power_test n :
  - 2 ^ 31 <= n < 2 ^ 31 ->
  ((n <=? 0) || negb (JS.and n (n - 1) =? 0) = false <-> exists k, 0 <= k /\ n = 2 ^ k).
Proof.
  intros Hn. rewrite orb_false_iff, negb_false_iff, Z.leb_gt, Z.eqb_eq. split.
  - intros [Hpos Hand]. unfold JS.and in Hand.
    rewrite !to_int32_small in Hand by lia. now apply land_pred_pow2.
  - intros (k & Hk & Heq).
    assert (Hpos : 0 < n) by (subst n; apply Z.pow_pos_nonneg; lia).
    split; [exact Hpos |]. unfold JS.and.
    rewrite !to_int32_small by lia. apply land_pred_pow2; eauto.
Qed.

Lemma small_divisor num a b :
  1 < a -> 1 < b -> num = a * b -> exists d, 2 <= d /\ d * d <= num /\ (d | num).
Proof.
  intros Ha Hb ->. destruct (Z_le_gt_dec a b).
  - exists a. repeat split; [lia | nia | now exists b; lia].
  - exists b. repeat split; [lia | nia | now exists a].
Qed.

Lemma isPrime_from_spec num s :
  2 <= num ->
  forall fuel i, 2 <= i -> i <= num ->
    (forall d, 2 <= d < i -> ~ (d | num)) ->
    num - i < Z.of_nat fuel ->
    (prime num -> isPrime_from fuel num i s = Ok true s) /\
    (~ prime num -> isPrime_from fuel num i s = Ok false s).
Proof.
  intros Hnum fuel. induction fuel as [| fuel IH]; intros i Hi Hle Hnone Hfuel; [lia |].
  simpl. destruct (Z.leb_spec (i * i) num) as [Hsq | Hsq].
  - destruct (Z.eqb_spec (JS.rem num i) 0) as [Hrem | Hrem].
    + assert (Hdiv : (i | num)) by (apply Z.rem_divide; [lia | exact Hrem]).
      split; [| reflexivity]. intros Hp. exfalso.
      apply prime_alt in Hp as [_ Hp]. apply (Hp i); [nia | exact Hdiv].
    + apply IH; try lia; [nia |].
      intros d Hd. destruct (Z.eq_dec d i) as [-> | Hne]; [| apply Hnone; lia].
      intros Hdiv. apply Hrem. apply Z.rem_divide; [lia | exact Hdiv].
  - assert (Hp : prime num).
    { apply prime_alt. split; [lia |]. intros a Ha [b Hb].
      destruct (small_divisor num b a) as (d & Hd2 & Hdd & Hdiv); [nia | lia | exact Hb |].
      apply (Hnone d); [nia | exact Hdiv]. }
    split; [reflexivity | intros Hnp; contradiction].
Qed.

Lemma isPrime_spec num s :
  (prime num -> isPrime num s = Ok true s) /\ (~ prime num -> isPrime num s = Ok false s).
Proof.
  unfold isPrime. destruct (Z.ltb_spec num 2) as [Hsmall | Hbig].
  - split; [| reflexivity]. intros [Hp _]. lia.
  - apply isPrime_from_spec; lia.
Qed.

(** What [validateParameters] does, for [n] in the range of the bitwise
    operators: it returns normally when [n] is a power of two, [q] is prime
    and [n <= q], and throws otherwise, leaving the store as it is.  The
    last test differs from [valid_parameters] when [q = n]. *)
Theorem validateParameters_spec (n q : Z) (s : state) :
  - 2 ^ 31 <= n < 2 ^ 31 ->
  ((exists k, 0 <= k /\ n = 2 ^ k) /\ prime q /\ n <= q ->
     validateParameters n q s = Ok tt s) /\
  (~ ((exists k, 0 <= k /\ n = 2 ^ k) /\ prime q /\ n <= q) ->
     exists msg, validateParameters n q s = Stuck (Thrown msg) s).
Proof.
  intros Hn. unfold validateParameters.
  pose proof (power_test n Hn) as Hpow.
  destruct ((n <=? 0) || negb (JS.and n (n - 1) =? 0)) eqn:Htest.
  - split.
    + intros (Hk & _). apply Hpow in Hk. discriminate.
    + intros _. eexists. reflexivity.
  - assert (Hk : exists k, 0 <= k /\ n = 2 ^ k) by now apply Hpow.
    destruct (isPrime_spec q s) as [Hyes Hno].
    destruct (prime_dec q) as [Hp | Hnp].
    + rewrite (bind_Ok _ _ _ _ _ (Hyes Hp)). simpl.
      destruct (Z.ltb_spec q n) as [Hlt | Hge].
      * split; [intros (_ & _ & Hle); lia | intros _; eexists; reflexivity].
      * split; [reflexivity | intros Hnot; exfalso; apply Hnot; auto].
    + rewrite (bind_Ok _ _ _ _ _ (Hno Hnp)). simpl.
      split; [intros (_ & Hp & _); contradiction | intros _; eexists; reflexivity].
Qed.

(** When the validation throws, the run of the version that has it ends
    there: nothing was drawn and no array was created. *)
Theorem main_validated_aborts (n q : Z) (arith : ModArith) (random : nat -> Z)
    (s : state) (msg : string) :
  validateParameters n q s = Stuck (Thrown msg) s ->
  main_validated n q random s = Stuck (Thrown msg) s.
Proof. intros Hv. unfold main_validated. now rewrite (bind_Stuck _ _ _ _ _ Hv). Qed.

Lemma prime_power_of_two k : 0 <= k -> prime (2 ^ k) -> 2 ^ k = 2.
Proof.
  intros Hk Hp. destruct (Z.eq_dec k 0) as [-> | Hk0].
  - destruct Hp as [Hp _]. simpl in Hp. lia.
  - destruct (Z.eq_dec k 1) as [-> | Hk1]; [reflexivity | exfalso].
    apply prime_alt in Hp as [_ Hp]. apply (Hp 2).
    + replace k with (1 + (k - 1)) by lia. rewrite Z.pow_add_r by lia.
      pose proof (Z.pow_gt_1 2 (k - 1) ltac:(lia)) as [Hgt _].
      specialize (Hgt ltac:(lia)). change (2 ^ 1) with 2. lia.
    + exists (2 ^ (k - 1)). replace k with ((k - 1) + 1) at 1 by lia.
      rewrite Z.pow_add_r by lia. reflexivity.
Qed.

(** X4. The one pair in that range which passes the validation without
    being valid is [n = 2], [q = 2]. *)
Theorem validateParameters_gap (n q : Z) (s : state) :
  - 2 ^ 31 <= n < 2 ^ 31 ->
  validateParameters n q s = Ok tt s -> ~ valid_parameters n q -> n = 2 /\ q = 2.
Proof.
  intros Hn Hok Hinvalid.
  destruct (validateParameters_spec n q s Hn) as [_ Hreject].
  assert (Haccept : (exists k, 0 <= k /\ n = 2 ^ k) /\ prime q /\ n <= q).
  { destruct (prime_dec q) as [Hp | Hnp].
    - destruct (Z_le_gt_dec n q) as [Hle | Hgt].
      + destruct (Z.leb_spec n 0) as [Hneg | Hpos].
        * destruct Hreject as [msg Hmsg]; [| congruence].
          intros ((k & Hk & ->) & _). pose proof (Z.pow_pos_nonneg 2 k ltac:(lia) Hk). lia.
        * split; [| auto]. apply (power_test n Hn).
          unfold validateParameters in Hok.
          destruct ((n <=? 0) || negb (JS.and n (n - 1) =? 0)); [discriminate | reflexivity].
      + destruct Hreject as [msg Hmsg]; [| congruence]. intros (_ & _ & Hle). lia.
    - destruct Hreject as [msg Hmsg]; [| congruence]. intros (_ & Hp & _). contradiction. }
  destruct Haccept as ((k & Hk & ->) & Hp & Hle).
  assert (Heq : q = 2 ^ k).
  { destruct (Z.eq_dec q (2 ^ k)) as [Heq | Hne]; [exact Heq | exfalso].
    apply Hinvalid. split; [eauto |]. split; [exact Hp | lia]. }
  subst q. pose proof (prime_power_of_two k Hk Hp). lia.
Qed.

(** ** The whole run *)

Lemma privateKeyHex_run checked r s xs :
  heap s !! r = Some xs ->
  privateKeyHex checked r s = Ok (to_hex (SHA256.hash (Buffer_from (decimal_text xs)))) s.
Proof.
  intros Hr. unfold privateKeyHex.
  destruct (sharedSecretToEntropy_run r xs s Hr) as [Hrun Hlen].
  rewrite (bind_Ok _ _ _ _ _ Hrun), Hlen. simpl. now rewrite andb_false_r.
Qed.

(** With [n] a power of two the main block runs to its end: the private
    key that is printed twice is the digest of the receiver's shared
    secret, and the length check of the later version never fires. *)
Theorem main_runs (n q k : Z) (arith : ModArith) (laws : ModArithLaws arith)
    (random : nat -> Z) (s : state) :
  n = 2 ^ k -> 0 <= k <= 30 ->
  tables_ok n q s ->
  let priv := sample random s n in
  let r := sample random (State (heap s) (drawn s + Z.to_nat n)) n in
  exists c out s',
    forward n q r = Some c /\
    backward n q (products q c priv) = Some out /\
    let key := to_hex (SHA256.hash (Buffer_from (decimal_text out))) in
    main n q random s = Ok (key, key) s' /\
    (validateParameters n q s = Ok tt s -> main_validated n q random s = Ok (key, key) s').
Proof.
  intros Hn Hk Ht priv r.
  edestruct generateKeyPair_run with (k := k) (Val := @any Z) (random := random) (s := s)
    as (pub & s1 & Hrun1 & Hpriv & _ & Htr1);
    try eassumption; try (intros; apply any_holds).
  destruct Htr1 as (Hpub & Hpublen & _ & Ht1 & Hsize1 & Hd1 & _).
  simpl in Hsize1, Hd1. rewrite !length_app in Hsize1. simpl in Hsize1.
  edestruct encapsulate_run with (k := k) (Val := @any Z) (random := random) (s := s1)
      (publicKey := S (length (heap s)))
    as (c & s2 & Hrun2 & Hfwd & Hc & Hclen & _ & _ & _ & Ht2 & Hsize2 & _ & Hold2);
    try eassumption; try (intros; apply any_holds); try lia.
  assert (Hpriv2 : heap s2 !! length (heap s) = Some priv).
  { rewrite Hold2 by lia. exact Hpriv. }
  edestruct decapsulate_run with (k := k) (Val := @any Z) (s := s2)
      (ciphertext := S (length (heap s1))) (privateKey := length (heap s))
    as (out & s3 & Hrun3 & Hbwd & Htr3);
    try eassumption; try (intros; apply any_holds).
  { pose proof (length_sample n k Hn Hk random s). fold priv in H. lia. }
  destruct Htr3 as (Hout & _).
  exists c, out, s3.
  split. { unfold sample in Hfwd |- *. simpl. now rewrite Hd1 in Hfwd. }
  split; [exact Hbwd |].
  assert (Hmain : main n q random s =
                  Ok (to_hex (SHA256.hash (Buffer_from (decimal_text out))),
                      to_hex (SHA256.hash (Buffer_from (decimal_text out)))) s3).
  { unfold main. rewrite (bind_Ok _ _ _ _ _ Hrun1). simpl.
    rewrite (bind_Ok _ _ _ _ _ Hrun2). simpl.
    rewrite (bind_Ok _ _ _ _ _ Hrun3).
    now rewrite !(bind_Ok _ _ _ _ _ (privateKeyHex_run _ _ _ _ Hout)). }
  split; [exact Hmain |].
  intros Hvalid. unfold main_validated. rewrite (bind_Ok _ _ _ _ _ Hvalid).
  rewrite (bind_Ok _ _ _ _ _ Hrun1). simpl.
  rewrite (bind_Ok _ _ _ _ _ Hrun2). simpl.
  rewrite (bind_Ok _ _ _ _ _ Hrun3).
  now rewrite !(bind_Ok _ _ _ _ _ (privateKeyHex_run _ _ _ _ Hout)).
Qed.

(** * Further properties of the sources *)

(** ** Primality test and validation *)

(** X1. [isPrime] always answers, and answers [true] exactly on the prime
    numbers: trial division up to the square root misses no divisor, and
    everything below 2 is rejected. *)
Theorem isPrime_decides (num : Z) (s : state) :
  exists b, isPrime num s = Ok b s /\ (b = true <-> prime num).
Proof.
  destruct (isPrime_spec num s) as [Hyes Hno].
  destruct (prime_dec num) as [Hp | Hnp].
  - exists true. split; [auto | tauto].
  - exists false. split; [auto |]. split; [discriminate | contradiction].
Qed.

(** X2. [validateParameters] checks in a fixed order and reports the
    first failure: [n] not a power of two, then [q] not prime, then
    [q < n]; otherwise it returns.  In every case the store is as before. *)
Theorem validateParameters_cases (n q : Z) (s : state) :
  - 2 ^ 31 <= n < 2 ^ 31 ->
  (~ (exists k, 0 <= k /\ n = 2 ^ k) ->
     validateParameters n q s =
     Stuck (Thrown "Parameter 'n' must be a power of 2 for FFT compatibility.") s) /\
  ((exists k, 0 <= k /\ n = 2 ^ k) -> ~ prime q ->
     validateParameters n q s = Stuck (Thrown "Parameter 'q' must be a prime number.") s) /\
  ((exists k, 0 <= k /\ n = 2 ^ k) -> prime q -> q < n ->
     validateParameters n q s =
     Stuck (Thrown "Parameter 'q' must be larger than 'n' to prevent overflow.") s) /\
  ((exists k, 0 <= k /\ n = 2 ^ k) -> prime q -> n <= q ->
     validateParameters n q s = Ok tt s).
Proof.
  intros Hn. unfold validateParameters.
  pose proof (power_test n Hn) as Hpow.
  destruct (isPrime_spec q s) as [Hyes Hno].
  destruct ((n <=? 0) || negb (JS.and n (n - 1) =? 0)) eqn:Htest.
  - assert (Hnot : ~ (exists k, 0 <= k /\ n = 2 ^ k)).
    { intros Hk. apply Hpow in Hk. discriminate. }
    repeat split; intros; try contradiction; reflexivity.
  - assert (Hk : exists k, 0 <= k /\ n = 2 ^ k) by now apply Hpow.
    split; [intros Hnot; contradiction |].
    split; [intros _ Hnp; now rewrite (bind_Ok _ _ _ _ _ (Hno Hnp)) |].
    split; intros _ Hp Hcmp; rewrite (bind_Ok _ _ _ _ _ (Hyes Hp)); simpl.
    + destruct (Z.ltb_spec q n); [reflexivity | lia].
    + destruct (Z.ltb_spec q n); [lia | reflexivity].
Qed.

Lemma validateParameters_cases_witness :
  (~ (exists k, 0 <= k /\ 4 = 2 ^ k) ->
     validateParameters 4 3 (State [] 0) =
     Stuck (Thrown "Parameter 'n' must be a power of 2 for FFT compatibility.") (State [] 0)) /\
  ((exists k, 0 <= k /\ 4 = 2 ^ k) -> ~ prime 3 ->
     validateParameters 4 3 (State [] 0) =
     Stuck (Thrown "Parameter 'q' must be a prime number.") (State [] 0)) /\
  ((exists k, 0 <= k /\ 4 = 2 ^ k) -> prime 3 -> 3 < 4 ->
     validateParameters 4 3 (State [] 0) =
     Stuck (Thrown "Parameter 'q' must be larger than 'n' to prevent overflow.") (State [] 0)) /\
  ((exists k, 0 <= k /\ 4 = 2 ^ k) -> prime 3 -> 4 <= 3 ->
     validateParameters 4 3 (State [] 0) = Ok tt (State [] 0)).
Proof. apply (validateParameters_cases 4 3 (State [] 0)). lia. Defined.

(** X3. With parameters the validation does not accept, the later version
    of the main block ends at the validation error: the store is
    untouched, so nothing was drawn and no key material exists. *)
Theorem main_validated_rejects (n q : Z) (arith : ModArith) (random : nat -> Z) (s : state) :
  - 2 ^ 31 <= n < 2 ^ 31 ->
  ~ ((exists k, 0 <= k /\ n = 2 ^ k) /\ prime q /\ n <= q) ->
  exists msg, main_validated n q random s = Stuck (Thrown msg) s.
Proof.
  intros Hn Hbad. destruct (validateParameters_spec n q s Hn) as [_ Hreject].
  destruct (Hreject Hbad) as [msg Hmsg]. exists msg.
  now apply main_validated_aborts.
Qed.

Lemma main_validated_rejects_witness :
  exists msg,
    @main_validated 4 3 Native.arith (fun _ => 0) (State [] 0) =
    Stuck (Thrown msg) (State [] 0).
Proof.
  apply (main_validated_rejects 4 3 Native.arith (fun _ => 0) (State [] 0)).
  - lia.
  - intros (_ & _ & Hle). lia.
Defined.

Lemma validateParameters_gap_witness : 2 = 2 /\ 2 = 2.
Proof.
  apply (validateParameters_gap 2 2 (State [] 0)).
  - lia.
  - reflexivity.
  - intros (_ & _ & Hlt). lia.
Defined.

(** ** The modular helpers *)

(** X5. What the native helpers return on residues: the residue of the
    sum, of the difference and of the product, each in [[0, q)]; and [mod]
    brings a negative number back into [[0, q)].  The modulus is at most
    [2^26], so that the product of two residues is below [2^53] and the
    native operators are exact. *)
Theorem Native_helpers_on_residues (a b q : Z) :
  q <= 2 ^ 26 -> 0 <= a < q -> 0 <= b < q ->
  Native.addMod a b q = (a + b) mod q /\
  Native.subMod a b q = (a - b) mod q /\
  Native.mulMod a b q = (a * b) mod q /\
  0 <= Native.subMod a b q < q /\
  (forall x, 0 <= Native.mod_ x q < q /\ Native.mod_ x q = x mod q).
Proof.
  intros _ Ha Hb. unfold Native.addMod, Native.subMod, Native.mulMod.
  rewrite !Native_mod_spec by lia.
  repeat split; try (apply Z.mod_pos_bound; lia);
    try (apply Native_mod_range; lia); apply Native_mod_spec; lia.
Qed.

Lemma Native_helpers_on_residues_witness :
  Native.addMod 1 2 RLWE.q = (1 + 2) mod RLWE.q /\
  Native.subMod 1 2 RLWE.q = (1 - 2) mod RLWE.q /\
  Native.mulMod 1 2 RLWE.q = (1 * 2) mod RLWE.q /\
  0 <= Native.subMod 1 2 RLWE.q < RLWE.q /\
  (forall x, 0 <= Native.mod_ x RLWE.q < RLWE.q /\ Native.mod_ x RLWE.q = x mod RLWE.q).
Proof.
  apply (Native_helpers_on_residues 1 2 RLWE.q); unfold RLWE.q; lia.
Defined.

(** X6. What the big-integer helpers return on residues: [addMod] and
    [mulMod] give the residue of the sum and of the product, but
    [subMod(a, b, q)] is the plain difference [a - b], negative whenever
    [a < b]; its size stays below [q]. *)
Theorem BigInt_helpers_on_residues (a b q : Z) :
  0 <= a < q -> 0 <= b < q ->
  BigInt.addMod a b q = (a + b) mod q /\
  BigInt.mulMod a b q = (a * b) mod q /\
  BigInt.subMod a b q = a - b /\
  (BigInt.subMod a b q < 0 <-> a < b).
Proof.
  intros Ha Hb. unfold BigInt.addMod, BigInt.mulMod, BigInt.subMod.
  split; [apply Z.rem_mod_nonneg; lia |].
  split; [apply Z.rem_mod_nonneg; nia |].
  assert (Hsub : Z.rem (a - b) q = a - b).
  { destruct (Z_le_gt_dec b a).
    - apply Z.rem_small. lia.
    - replace (a - b) with (- (b - a)) by lia.
      rewrite Z.rem_opp_l', Z.rem_small by lia. reflexivity. }
  rewrite Hsub. split; [reflexivity | lia].
Qed.

Lemma BigInt_helpers_on_residues_witness :
  BigInt.addMod 40960 2 RLWE.q = (40960 + 2) mod RLWE.q /\
  BigInt.mulMod 40960 2 RLWE.q = (40960 * 2) mod RLWE.q /\
  BigInt.subMod 40960 2 RLWE.q = 40960 - 2 /\
  (BigInt.subMod 40960 2 RLWE.q < 0 <-> 40960 < 2).
Proof.
  apply (BigInt_helpers_on_residues 40960 2 RLWE.q); unfold RLWE.q; lia.
Defined.

(** ** The twiddle tables *)

(** X7. When [n < q] no table entry wraps around: [W[i]] is [i + 1],
    [W_rev[i]] is [q - W[i]], both are non-zero residues, and the two add
    up to [q] (each is the negative of the other modulo [q]). *)
Theorem twiddles_are_negatives (n q i : Z) :
  n < q -> 0 <= i < n ->
  exists w w',
    index (W_init n q) i = Some w /\ index (W_rev_init n q) i = Some w' /\
    w = i + 1 /\ w + w' = q /\ 0 < w < q /\ 0 < w' < q.
Proof.
  intros Hq Hi. exists (i + 1), (q - (i + 1)).
  split.
  { rewrite W_init_entry by lia. now rewrite Z.mod_small by lia. }
  split.
  { rewrite W_rev_init_entry by lia.
    replace (q - i - 1) with (q - (i + 1)) by lia. now rewrite Z.mod_small by lia. }
  lia.
Qed.

Lemma twiddles_are_negatives_witness :
  exists w w',
    index (W_init RLWE.n RLWE.q) 1023 = Some w /\
    index (W_rev_init RLWE.n RLWE.q) 1023 = Some w' /\
    w = 1023 + 1 /\ w + w' = RLWE.q /\ 0 < w < RLWE.q /\ 0 < w' < RLWE.q.
Proof.
  apply (twiddles_are_negatives RLWE.n RLWE.q 1023); unfold RLWE.n, RLWE.q; lia.
Defined.

(** ** Entropy and private key *)

Lemma decimal_text_app xs ys :
  decimal_text (xs ++ ys) = (decimal_text xs ++ decimal_text ys)%string.
Proof.
  unfold decimal_text. induction xs as [| v xs IH]; simpl; [reflexivity |].
  rewrite IH. clear IH. generalize (toString v) as t.
  induction t as [| c t IH]; simpl; [reflexivity | now rewrite IH].
Qed.

Lemma polynomial_padded n q a b :
  2 <= n -> 0 <= a < q -> 0 <= b < q ->
  polynomial n q ([a; b] ++ repeat 0 (Z.to_nat (n - 2))).
Proof.
  intros Hn Ha Hb. split.
  - rewrite length_app, repeat_length. simpl. lia.
  - apply Forall_app. split; [repeat constructor; lia |].
    apply Forall_forall. intros v Hv. apply list_elem_of_In, repeat_spec in Hv. lia.
Qed.

(** X8. The coefficients are hashed with nothing between them, so the
    entropy does not determine the shared secret: for every [n >= 2] and
    [q > 23] there are two different polynomials, [1, 23, 0, ...] and
    [12, 3, 0, ...], that [sharedSecretToEntropy] maps to the same digest. *)
Theorem entropy_not_injective (n q : Z) :
  2 <= n -> 23 < q ->
  exists xs ys,
    polynomial n q xs /\ polynomial n q ys /\ xs <> ys /\
    forall r1 r2 s1 s2,
      heap s1 !! r1 = Some xs -> heap s2 !! r2 = Some ys ->
      exists digest,
        sharedSecretToEntropy r1 s1 = Ok digest s1 /\
        sharedSecretToEntropy r2 s2 = Ok digest s2.
Proof.
  intros Hn Hq.
  exists ([1; 23] ++ repeat 0 (Z.to_nat (n - 2))), ([12; 3] ++ repeat 0 (Z.to_nat (n - 2))).
  split; [apply polynomial_padded; lia |].
  split; [apply polynomial_padded; lia |].
  split; [discriminate |].
  intros r1 r2 s1 s2 H1 H2.
  destruct (sharedSecretToEntropy_run r1 _ s1 H1) as [Hrun1 _].
  destruct (sharedSecretToEntropy_run r2 _ s2 H2) as [Hrun2 _].
  eexists. split; [exact Hrun1 |].
  rewrite Hrun2. now rewrite !decimal_text_app.
Qed.

Lemma entropy_not_injective_witness :
  exists xs ys,
    polynomial RLWE.n RLWE.q xs /\ polynomial RLWE.n RLWE.q ys /\ xs <> ys /\
    forall r1 r2 s1 s2,
      heap s1 !! r1 = Some xs -> heap s2 !! r2 = Some ys ->
      exists digest,
        sharedSecretToEntropy r1 s1 = Ok digest s1 /\
        sharedSecretToEntropy r2 s2 = Ok digest s2.
Proof.
  apply (entropy_not_injective RLWE.n RLWE.q); unfold RLWE.n, RLWE.q; lia.
Defined.

Lemma length_string_of_list (cs : list ascii) :
  String.length (string_of_list_ascii cs) = length cs.
Proof. induction cs as [| c cs IH]; simpl; [reflexivity | now rewrite IH]. Qed.

Lemma length_to_hex bs : String.length (to_hex bs) = (2 * length bs)%nat.
Proof.
  unfold to_hex. rewrite length_string_of_list.
  induction bs as [| b bs IH]; simpl; [reflexivity | rewrite IH; lia].
Qed.

Lemma sharedSecretToEntropy_length r s digest s' :
  sharedSecretToEntropy r s = Ok digest s' -> length digest = 32%nat.
Proof.
  unfold sharedSecretToEntropy, bind.
  destruct (array_forEach r _ Hash.createHash s) as [h t | e t]; [| discriminate].
  intros [= <- _]. apply length_hash.
Qed.

(** X9. The length check on the private key never fires.  Whatever the
    array and the store, checked and unchecked derivation do the same,
    and a private key that is returned has 64 hexadecimal digits. *)
Theorem privateKey_check_never_fires (sharedSecret : ref) (s : state) :
  privateKeyHex true sharedSecret s = privateKeyHex false sharedSecret s /\
  (forall key s', privateKeyHex true sharedSecret s = Ok key s' -> String.length key = 64%nat).
Proof.
  unfold privateKeyHex, bind.
  destruct (sharedSecretToEntropy sharedSecret s) as [digest t | e t] eqn:Hrun.
  - apply sharedSecretToEntropy_length in Hrun.
    rewrite Hrun. simpl. split; [reflexivity |].
    intros key s' [= <- _]. rewrite length_to_hex, Hrun. reflexivity.
  - split; [reflexivity | discriminate].
Qed.

(** ** The transforms work in place *)

Lemma set_array_twice x ys zs s : set_array x zs (set_array x ys s) = set_array x zs s.
Proof. unfold set_array. simpl. now rewrite list_insert_insert_eq. Qed.

Lemma set_array_same x xs s : heap s !! x = Some xs -> set_array x xs s = s.
Proof.
  intros Hx. unfold set_array. rewrite list_insert_id by exact Hx. now destruct s.
Qed.

Section InPlace.

Context (n q k : Z) {arith : ModArith} {laws : ModArithLaws arith}.
Hypothesis Hn : n = 2 ^ k.
Hypothesis Hk : 0 <= k <= 30.
Variable x : ref.
Variable s0 : state.
Hypothesis x_array : (2 <= x)%nat.
Hypothesis x_allocated : (x < length (heap s0))%nat.
Hypothesis tables : tables_ok n q s0.

Let R := only_changed n x s0.

Lemma changed_load i : 0 <= i < n -> agree R (load x i) (load x i) any.
Proof.
  intros Hi t1 t2 [<- (ys & -> & Hlen)].
  destruct (index_Some ys i ltac:(lia)) as [v Hv].
  exists v, (set_array x ys s0), (set_array x ys s0).
  rewrite (load_Ok _ _ _ ys v) by (auto using heap_set_array_eq).
  do 2 (split; [reflexivity |]). split; [exact I |]. split; [reflexivity | eauto].
Qed.

Lemma changed_load_table T ws i :
  (T < 2)%nat -> heap s0 !! T = Some ws -> Z.of_nat (length ws) = n ->
  0 <= i < n -> agree R (load T i) (load T i) any.
Proof.
  intros HT Hws Hlen Hi t1 t2 [<- (ys & -> & Hys)].
  destruct (index_Some ws i ltac:(lia)) as [v Hv].
  exists v, (set_array x ys s0), (set_array x ys s0).
  rewrite (load_Ok _ _ _ ws v); [| rewrite heap_set_array_ne by lia; exact Hws | exact Hv].
  do 2 (split; [reflexivity |]). split; [exact I |]. split; [reflexivity | eauto].
Qed.

Lemma changed_store i v : 0 <= i < n -> any v -> agree R (store x i v) (store x i v) any.
Proof.
  intros Hi _ t1 t2 [<- (ys & -> & Hlen)].
  exists tt, (set_array x (<[Z.to_nat i := v]> ys) s0), (set_array x (<[Z.to_nat i := v]> ys) s0).
  rewrite (store_Ok _ _ _ _ ys) by (auto using heap_set_array_eq; lia).
  rewrite set_array_twice.
  do 2 (split; [reflexivity |]). split; [exact I |]. split; [reflexivity |].
  exists (<[Z.to_nat i := v]> ys). now rewrite length_insert.
Qed.

Lemma n_nonneg : 0 <= n.
Proof. pose proof (n_pos n k Hn Hk). lia. Qed.

Lemma fftForward_only_changes xs :
  heap s0 !! x = Some xs -> Z.of_nat (length xs) = n ->
  exists ys, fftForward n q x s0 = Ok tt (set_array x ys s0).
Proof.
  intros Hx Hlen. destruct tables as [HW HWr].
  edestruct fftForward_agree with (k := k) (Val := @any Z) (x1 := x) (x2 := x) (R := R)
      (s1 := s0) (s2 := s0)
    as ([] & t1 & t2 & Hrun & _ & _ & _ & ys & -> & _);
    try eassumption; try (intros; apply any_holds).
  - apply changed_load.
  - intros i Hi. apply (changed_load_table W (W_init n q));
      [unfold W; lia | exact HW | apply length_W_init, n_nonneg | exact Hi].
  - apply changed_store.
  - split; [reflexivity |]. exists xs. now rewrite set_array_same.
  - eauto.
Qed.

Lemma fftBackward_only_changes xs :
  heap s0 !! x = Some xs -> Z.of_nat (length xs) = n ->
  exists ys, fftBackward n q x s0 = Ok tt (set_array x ys s0).
Proof.
  intros Hx Hlen. destruct tables as [HW HWr].
  edestruct fftBackward_agree with (k := k) (Val := @any Z) (x1 := x) (x2 := x) (R := R)
      (s1 := s0) (s2 := s0)
    as ([] & t1 & t2 & Hrun & _ & _ & _ & ys & -> & _);
    try eassumption; try (intros; apply any_holds).
  - apply changed_load.
  - intros i Hi. apply (changed_load_table W_rev (W_rev_init n q));
      [unfold W_rev; lia | exact HWr | apply length_W_rev_init, n_nonneg | exact Hi].
  - apply changed_store.
  - split; [reflexivity |]. exists xs. now rewrite set_array_same.
  - eauto.
Qed.

End InPlace.

(** X10. The transforms work in place and locally.  On an array of length
    [n] that is not a table, in any store with the tables, [fftForward]
    and [fftBackward] end normally and leave the very same store with
    only that array replaced; the new contents are a function of the old
    contents alone ([forward], [backward]). *)
Theorem transforms_in_place (n q k : Z) (arith : ModArith) (laws : ModArithLaws arith)
    (x : ref) (xs : list Z) (s : state) :
  n = 2 ^ k -> 0 <= k <= 30 ->
  tables_ok n q s -> (2 <= x)%nat ->
  heap s !! x = Some xs -> Z.of_nat (length xs) = n ->
  exists ys zs,
    forward n q xs = Some ys /\ fftForward n q x s = Ok tt (set_array x ys s) /\
    backward n q xs = Some zs /\ fftBackward n q x s = Ok tt (set_array x zs s) /\
    Z.of_nat (length ys) = n /\ Z.of_nat (length zs) = n.
Proof.
  intros Hn Hk Ht Hx2 Hx Hlen.
  pose proof (lookup_lt_Some _ _ _ Hx) as Hxl.
  destruct (fftForward_only_changes n q k Hn Hk x s Hx2 Hxl Ht xs Hx Hlen) as [ys Hf].
  destruct (fftBackward_only_changes n q k Hn Hk x s Hx2 Hxl Ht xs Hx Hlen) as [zs Hb].
  edestruct @fftForward_run with (k := k) (Val := @any Z) (x := x) (s := s)
    as (ys' & s1 & Hf' & Hfwd & Hy & Hylen & _);
    try eassumption; try (intros; apply any_holds).
  { apply Forall_forall. intros; exact I. }
  edestruct @fftBackward_run with (k := k) (Val := @any Z) (x := x) (s := s)
    as (zs' & s2 & Hb' & Hbwd & Hz & Hzlen & _);
    try eassumption; try (intros; apply any_holds).
  { apply Forall_forall. intros; exact I. }
  assert (ys' = ys).
  { rewrite Hf in Hf'. injection Hf' as <-. rewrite heap_set_array_eq in Hy by exact Hxl.
    congruence. }
  assert (zs' = zs).
  { rewrite Hb in Hb'. injection Hb' as <-. rewrite heap_set_array_eq in Hz by exact Hxl.
    congruence. }
  subst ys' zs'. exists ys, zs. auto 10.
Qed.

Lemma transforms_in_place_witness :
  exists ys zs,
    @forward RLWE.n RLWE.q Native.arith (repeat 0 1024) = Some ys /\
    @fftForward RLWE.n RLWE.q Native.arith 2%nat (scratch RLWE.n RLWE.q (repeat 0 1024)) =
      Ok tt (set_array 2%nat ys (scratch RLWE.n RLWE.q (repeat 0 1024))) /\
    @backward RLWE.n RLWE.q Native.arith (repeat 0 1024) = Some zs /\
    @fftBackward RLWE.n RLWE.q Native.arith 2%nat (scratch RLWE.n RLWE.q (repeat 0 1024)) =
      Ok tt (set_array 2%nat zs (scratch RLWE.n RLWE.q (repeat 0 1024))) /\
    Z.of_nat (length ys) = RLWE.n /\ Z.of_nat (length zs) = RLWE.n.
Proof.
  apply (transforms_in_place RLWE.n RLWE.q 10 Native.arith Native_laws 2%nat
           (repeat 0 1024) (scratch RLWE.n RLWE.q (repeat 0 1024))).
  - reflexivity.
  - lia.
  - apply tables_ok_scratch.
  - lia.
  - reflexivity.
  - reflexivity.
Defined.

(** ** What the exchange operations return *)

(** X11. [encapsulate] draws the next [n] numbers [r], and returns two new
    arrays: the ciphertext [forward r] and the shared secret
    [r[i] * publicKey[i]], computed from the untransformed [r].  The
    public key, which may be longer than [n], and every other array that
    existed are unchanged. *)
Theorem encapsulate_result (n q k : Z) (arith : ModArith) (laws : ModArithLaws arith)
    (random : nat -> Z) (publicKey : ref) (pub : list Z) (s : state) :
  n = 2 ^ k -> 0 <= k <= 30 ->
  tables_ok n q s ->
  heap s !! publicKey = Some pub -> n <= Z.of_nat (length pub) ->
  exists ciphertext sharedSecret c s',
    encapsulate n q random publicKey s = Ok (ciphertext, sharedSecret) s' /\
    ciphertext <> sharedSecret /\
    (length (heap s) <= ciphertext)%nat /\ (length (heap s) <= sharedSecret)%nat /\
    forward n q (sample random s n) = Some c /\
    heap s' !! ciphertext = Some c /\
    heap s' !! sharedSecret = Some (products q (sample random s n) pub) /\
    drawn s' = (drawn s + Z.to_nat n)%nat /\
    (forall r, (r < length (heap s))%nat -> heap s' !! r = heap s !! r).
Proof.
  intros Hn Hk Ht Hpub Hlen.
  edestruct encapsulate_run with (k := k) (Val := @any Z) (random := random) (s := s)
      (publicKey := publicKey)
    as (c & s' & Hrun & Hfwd & Hc & _ & _ & Hsec & _ & _ & _ & Hd & Hold);
    try eassumption; try (intros; apply any_holds).
  exists (S (length (heap s))), (S (S (length (heap s)))), c, s'.
  split; [exact Hrun |]. split; [lia |]. split; [lia |]. split; [lia |]. auto 10.
Qed.

Lemma encapsulate_result_witness :
  exists ciphertext sharedSecret c s',
    @encapsulate RLWE.n RLWE.q Native.arith (fun _ => 1) 2%nat
       (scratch RLWE.n RLWE.q (repeat 2 1024)) = Ok (ciphertext, sharedSecret) s' /\
    ciphertext <> sharedSecret /\
    (3 <= ciphertext)%nat /\ (3 <= sharedSecret)%nat /\
    @forward RLWE.n RLWE.q Native.arith
       (sample (fun _ => 1) (scratch RLWE.n RLWE.q (repeat 2 1024)) RLWE.n) = Some c /\
    heap s' !! ciphertext = Some c /\
    heap s' !! sharedSecret =
      Some (@products Native.arith RLWE.q
              (sample (fun _ => 1) (scratch RLWE.n RLWE.q (repeat 2 1024)) RLWE.n)
              (repeat 2 1024)) /\
    drawn s' = (0 + Z.to_nat RLWE.n)%nat /\
    (forall r, (r < 3)%nat ->
       heap s' !! r = heap (scratch RLWE.n RLWE.q (repeat 2 1024)) !! r).
Proof.
  apply (encapsulate_result RLWE.n RLWE.q 10 Native.arith Native_laws (fun _ => 1) 2%nat
           (repeat 2 1024) (scratch RLWE.n RLWE.q (repeat 2 1024))).
  - reflexivity.
  - lia.
  - apply tables_ok_scratch.
  - reflexivity.
  - rewrite repeat_length. unfold RLWE.n. lia.
Defined.

(** X12. [decapsulate] returns a new array holding
    [backward (ciphertext[i] * privateKey[i])]; it draws nothing, and a
    private key longer than the ciphertext is used up to the length of
    the ciphertext. *)
Theorem decapsulate_result (n q k : Z) (arith : ModArith) (laws : ModArithLaws arith)
    (ciphertext privateKey : ref) (cs ks : list Z) (s : state) :
  n = 2 ^ k -> 0 <= k <= 30 ->
  tables_ok n q s ->
  heap s !! ciphertext = Some cs -> heap s !! privateKey = Some ks ->
  Z.of_nat (length cs) = n -> (length cs <= length ks)%nat ->
  exists out s',
    decapsulate n q ciphertext privateKey s = Ok (length (heap s)) s' /\
    backward n q (products q cs ks) = Some out /\
    heap s' !! length (heap s) = Some out /\
    Z.of_nat (length out) = n /\
    length (heap s') = S (length (heap s)) /\
    drawn s' = drawn s.
Proof.
  intros Hn Hk Ht Hct Hsk Hclen Hle.
  edestruct decapsulate_run with (k := k) (Val := @any Z) (s := s)
      (ciphertext := ciphertext) (privateKey := privateKey)
    as (out & s' & Hrun & Hbwd & Hout & Holen & _ & _ & Hsize & Hd & _);
    try eassumption; try (intros; apply any_holds).
  exists out, s'. simpl in Hsize, Hd. rewrite length_app in Hsize. simpl in Hsize.
  split; [exact Hrun |]. split; [exact Hbwd |]. split; [exact Hout |].
  split; [exact Holen |]. split; [lia | exact Hd].
Qed.

Lemma decapsulate_result_witness :
  exists out s',
    @decapsulate RLWE.n RLWE.q Native.arith 2%nat 2%nat
       (scratch RLWE.n RLWE.q (repeat 2 1024)) = Ok 3%nat s' /\
    @backward RLWE.n RLWE.q Native.arith
       (@products Native.arith RLWE.q (repeat 2 1024) (repeat 2 1024)) = Some out /\
    heap s' !! 3%nat = Some out /\
    Z.of_nat (length out) = RLWE.n /\
    length (heap s') = 4%nat /\
    drawn s' = 0%nat.
Proof.
  apply (decapsulate_result RLWE.n RLWE.q 10 Native.arith Native_laws 2%nat 2%nat
           (repeat 2 1024) (repeat 2 1024) (scratch RLWE.n RLWE.q (repeat 2 1024))).
  - reflexivity.
  - lia.
  - apply tables_ok_scratch.
  - reflexivity.
  - reflexivity.
  - reflexivity.
  - lia.
Defined.

(** The three operations in a row, in terms of the transforms. *)
Lemma exchange_run (n q k : Z) (arith : ModArith) (laws : ModArithLaws arith)
    (random : nat -> Z) (s : state) :
  n = 2 ^ k -> 0 <= k <= 30 ->
  tables_ok n q s ->
  exists pub c out s',
    forward n q (sample random s n) = Some pub /\
    forward n q (sample random (State (heap s) (drawn s + Z.to_nat n)) n) = Some c /\
    backward n q (products q c (sample random s n)) = Some out /\
    exchange n q random s =
      Ok (products q (sample random (State (heap s) (drawn s + Z.to_nat n)) n) pub, out) s' /\
    drawn s' = (drawn s + Z.to_nat n + Z.to_nat n)%nat /\
    Z.of_nat (length pub) = n /\ Z.of_nat (length c) = n.
Proof.
  intros Hn Hk Ht.
  edestruct generateKeyPair_run with (k := k) (Val := @any Z) (random := random) (s := s)
    as (pub & s1 & Hrun1 & Hpriv & Hfwd1 & Htr1);
    try eassumption; try (intros; apply any_holds).
  destruct Htr1 as (Hpub & Hpublen & _ & Ht1 & Hsize1 & Hd1 & _).
  simpl in Hsize1, Hd1. rewrite !length_app in Hsize1. simpl in Hsize1.
  edestruct encapsulate_run with (k := k) (Val := @any Z) (random := random) (s := s1)
      (publicKey := S (length (heap s)))
    as (c & s2 & Hrun2 & Hfwd2 & Hc & Hclen & _ & Hsec & _ & Ht2 & Hsize2 & Hd2 & Hold2);
    try eassumption; try (intros; apply any_holds); try lia.
  assert (Hpriv2 : heap s2 !! length (heap s) = Some (sample random s n)).
  { rewrite Hold2 by lia. exact Hpriv. }
  edestruct decapsulate_run with (k := k) (Val := @any Z) (s := s2)
      (ciphertext := S (length (heap s1))) (privateKey := length (heap s))
    as (out & s3 & Hrun3 & Hbwd & Htr3);
    try eassumption; try (intros; apply any_holds).
  { pose proof (length_sample n k Hn Hk random s). lia. }
  destruct Htr3 as (Hout & _ & _ & _ & Hsize3 & Hd3 & Hold3).
  simpl in Hsize3, Hd3. rewrite length_app in Hsize3. simpl in Hsize3.
  assert (Hsame : sample random s1 n = sample random (State (heap s) (drawn s + Z.to_nat n)) n).
  { unfold sample. simpl. now rewrite Hd1. }
  exists pub, c, out, s3.
  split; [exact Hfwd1 |]. split; [now rewrite <- Hsame |]. split; [exact Hbwd |].
  split; [| split; [lia | split; assumption]].
  unfold exchange. rewrite (bind_Ok _ _ _ _ _ Hrun1). simpl.
  rewrite (bind_Ok _ _ _ _ _ Hrun2). simpl.
  rewrite (bind_Ok _ _ _ _ _ Hrun3).
  assert (Hsec3 : heap s3 !! S (S (length (heap s1))) = Some (products q (sample random s1 n) pub)).
  { rewrite Hold3 by lia. simpl. rewrite lookup_app_l by lia. exact Hsec. }
  rewrite (bind_Ok _ _ _ _ _ (contents_Ok _ _ _ Hsec3)).
  rewrite (bind_Ok _ _ _ _ _ (contents_Ok _ _ _ Hout)).
  now rewrite Hsame.
Qed.

(** X13. The three operations as the main block chains them.  The private
    key is the first [n] draws and the randomness [r] the next [n]; the
    sender's secret is [r[i] * forward(priv)[i]] and the receiver's is
    [backward (forward(r)[i] * priv[i])]; [2 n] numbers are drawn in all. *)
Theorem exchange_result (n q k : Z) (arith : ModArith) (laws : ModArithLaws arith)
    (random : nat -> Z) (s : state) :
  n = 2 ^ k -> 0 <= k <= 30 ->
  tables_ok n q s ->
  exists pub c out s',
    forward n q (sample random s n) = Some pub /\
    forward n q (sample random (State (heap s) (drawn s + Z.to_nat n)) n) = Some c /\
    backward n q (products q c (sample random s n)) = Some out /\
    exchange n q random s =
      Ok (products q (sample random (State (heap s) (drawn s + Z.to_nat n)) n) pub, out) s' /\
    drawn s' = (drawn s + Z.to_nat n + Z.to_nat n)%nat.
Proof.
  intros Hn Hk Ht.
  destruct (exchange_run n q k arith laws random s Hn Hk Ht)
    as (pub & c & out & s' & Hpub & Hc & Hout & Hrun & Hd & _).
  exists pub, c, out, s'. auto.
Qed.

Lemma exchange_result_witness :
  exists pub c out s',
    @forward RLWE.n RLWE.q Native.arith
      (sample (fun _ => 1) (State [W_init RLWE.n RLWE.q; W_rev_init RLWE.n RLWE.q] 0) RLWE.n) =
      Some pub /\
    @forward RLWE.n RLWE.q Native.arith
      (sample (fun _ => 1)
         (State [W_init RLWE.n RLWE.q; W_rev_init RLWE.n RLWE.q] (0 + Z.to_nat RLWE.n)) RLWE.n) =
      Some c /\
    @backward RLWE.n RLWE.q Native.arith
      (@products Native.arith RLWE.q c
         (sample (fun _ => 1) (State [W_init RLWE.n RLWE.q; W_rev_init RLWE.n RLWE.q] 0) RLWE.n)) =
      Some out /\
    @exchange RLWE.n RLWE.q Native.arith (fun _ => 1)
      (State [W_init RLWE.n RLWE.q; W_rev_init RLWE.n RLWE.q] 0) =
      Ok (@products Native.arith RLWE.q
            (sample (fun _ => 1)
               (State [W_init RLWE.n RLWE.q; W_rev_init RLWE.n RLWE.q] (0 + Z.to_nat RLWE.n))
               RLWE.n) pub, out) s' /\
    drawn s' = (0 + Z.to_nat RLWE.n + Z.to_nat RLWE.n)%nat.
Proof.
  apply (exchange_result RLWE.n RLWE.q 10 Native.arith Native_laws (fun _ => 1)
           (State [W_init RLWE.n RLWE.q; W_rev_init RLWE.n RLWE.q] 0)).
  - reflexivity.
  - lia.
  - split; reflexivity.
Defined.

(** ** Ranges kept by the two versions *)

Lemma Native_preserves_polynomial_witness :
  exists privateKey publicKey priv pub s',
    @generateKeyPair 4 17 Native.arith (fun _ => 1) (State [W_init 4 17; W_rev_init 4 17] 0) =
      Ok (privateKey, publicKey) s' /\
    heap s' !! privateKey = Some priv /\ heap s' !! publicKey = Some pub /\
    polynomial 4 17 priv /\ polynomial 4 17 pub.
Proof.
  refine (proj1 (proj2 (Native_preserves_polynomial 4 17 2 (fun _ => 1)
            (State [W_init 4 17; W_rev_init 4 17] 0) _ _ _ _ _))).
  - reflexivity.
  - lia.
  - lia.
  - split; reflexivity.
  - intros i. lia.
Defined.

(** X15. With the big-integer helpers the transforms keep sizes, not
    signs: on an array whose elements are between [-q] and [q], the
    outcome of [fftForward] and of [fftBackward] has length [n] and
    elements between [-q] and [q] (both exclusive), possibly negative. *)
Theorem BigInt_keeps_magnitude (n q k : Z) (x : ref) (xs : list Z) (s : state) :
  n = 2 ^ k -> 0 <= k <= 30 -> 0 < q ->
  tables_ok n q s -> (2 <= x)%nat ->
  heap s !! x = Some xs -> Z.of_nat (length xs) = n ->
  Forall (fun v => - q < v < q) xs ->
  (exists ys s', @fftForward n q BigInt.arith x s = Ok tt s' /\
                 heap s' !! x = Some ys /\ Z.of_nat (length ys) = n /\
                 Forall (fun v => - q < v < q) ys) /\
  (exists ys s', @fftBackward n q BigInt.arith x s = Ok tt s' /\
                 heap s' !! x = Some ys /\ Z.of_nat (length ys) = n /\
                 Forall (fun v => - q < v < q) ys).
Proof.
  intros Hn Hk Hq Ht Hx2 Hx Hlen Hval.
  assert (Hrem : forall v, - q < Z.rem v q < q).
  { intros v. pose proof (Z.rem_bound_abs v q). lia. }
  split.
  - edestruct @fftForward_run with (arith := BigInt.arith) (k := k)
        (Val := fun v => - q < v < q) (x := x) (s := s)
      as (ys & s' & Hrun & _ & Hy & Hylen & Hyval & _);
      try eassumption; try apply _; try (intros; apply Hrem).
    eauto 10.
  - edestruct @fftBackward_run with (arith := BigInt.arith) (k := k)
        (Val := fun v => - q < v < q) (x := x) (s := s)
      as (ys & s' & Hrun & _ & Hy & Hylen & Hyval & _);
      try eassumption; try apply _; try (intros; apply Hrem).
    eauto 10.
Qed.

Lemma BigInt_keeps_magnitude_witness :
  (exists ys s', @fftForward 4 17 BigInt.arith 2%nat (scratch 4 17 [1; 2; 3; 4]) = Ok tt s' /\
                 heap s' !! 2%nat = Some ys /\ Z.of_nat (length ys) = 4 /\
                 Forall (fun v => - 17 < v < 17) ys) /\
  (exists ys s', @fftBackward 4 17 BigInt.arith 2%nat (scratch 4 17 [1; 2; 3; 4]) = Ok tt s' /\
                 heap s' !! 2%nat = Some ys /\ Z.of_nat (length ys) = 4 /\
                 Forall (fun v => - 17 < v < 17) ys).
Proof.
  apply (BigInt_keeps_magnitude 4 17 2 2%nat [1; 2; 3; 4] (scratch 4 17 [1; 2; 3; 4])).
  - reflexivity.
  - lia.
  - lia.
  - apply tables_ok_scratch.
  - lia.
  - reflexivity.
  - reflexivity.
  - repeat constructor; lia.
Defined.

(** ** The two versions of the helpers side by side *)

Lemma rem_mod v q : 0 < q -> Z.rem v q mod q = v mod q.
Proof.
  intros Hq. pose proof (Z.quot_rem' v q) as Hv.
  replace (Z.rem v q) with (v + (- (v ÷ q)) * q) by lia.
  apply Z_mod_plus_full.
Qed.

Lemma index_same x m :
  0 <= x -> 0 < m -> @mod_ Native.arith x m = @mod_ BigInt.arith x m.
Proof.
  intros Hx Hm. simpl. rewrite Native_mod_spec by lia.
  unfold BigInt.mod_. rewrite Z.rem_mod_nonneg by lia. reflexivity.
Qed.

Lemma add_reduced q a1 a2 b1 b2 :
  0 < q -> reduced q a1 a2 -> reduced q b1 b2 ->
  reduced q (@addMod BigInt.arith a1 b1 q) (@addMod Native.arith a2 b2 q).
Proof.
  unfold reduced. intros Hq -> ->. simpl.
  unfold Native.addMod, BigInt.addMod. rewrite Native_mod_spec, rem_mod by lia.
  symmetry. apply Zplus_mod.
Qed.

Lemma sub_reduced q a1 a2 b1 b2 :
  0 < q -> reduced q a1 a2 -> reduced q b1 b2 ->
  reduced q (@subMod BigInt.arith a1 b1 q) (@subMod Native.arith a2 b2 q).
Proof.
  unfold reduced. intros Hq -> ->. simpl.
  unfold Native.subMod, BigInt.subMod. rewrite Native_mod_spec, rem_mod by lia.
  symmetry. apply Zminus_mod.
Qed.

Lemma mul_reduced q a1 a2 b1 b2 :
  0 < q -> reduced q a1 a2 -> reduced q b1 b2 ->
  reduced q (@mulMod BigInt.arith a1 b1 q) (@mulMod Native.arith a2 b2 q).
Proof.
  unfold reduced. intros Hq -> ->. simpl.
  unfold Native.mulMod, BigInt.mulMod. rewrite Native_mod_spec, rem_mod by lia.
  symmetry. apply Zmult_mod.
Qed.

Lemma mul_reduced_table q a1 a2 w :
  0 < q -> reduced q a1 a2 ->
  reduced q (@mulMod BigInt.arith a1 w q) (@mulMod Native.arith a2 w q).
Proof.
  unfold reduced. intros Hq ->. simpl.
  unfold Native.mulMod, BigInt.mulMod. rewrite Native_mod_spec, rem_mod by lia.
  apply Z.mul_mod_idemp_l. lia.
Qed.

Lemma products_reduced q xs ys :
  0 < q ->
  @products Native.arith q (map (fun v => v mod q) xs) (map (fun v => v mod q) ys) =
  map (fun v => v mod q) (@products BigInt.arith q xs ys).
Proof.
  intros Hq. unfold products. revert ys.
  induction xs as [| a xs IH]; intros [| b ys]; simpl; try reflexivity.
  f_equal; [| apply IH].
  exact (mul_reduced q a _ b _ Hq eq_refl eq_refl).
Qed.

Lemma residues_of_range q xs :
  Forall (fun v => 0 <= v < q) xs -> map (fun v => v mod q) xs = xs.
Proof.
  induction 1 as [| v xs Hv _ IH]; simpl; [reflexivity |].
  rewrite IH, Z.mod_small by lia. reflexivity.
Qed.

(** ** Related runs *)

Lemma related_ret {A} (V : A -> A -> Prop) R (a1 a2 : A) :
  V a1 a2 -> related V R (ret a1) (ret a2).
Proof. intros HV s1 s2 HR. exists a1, a2, s1, s2. auto. Qed.

Lemma related_bind {A B} (V : A -> A -> Prop) (V' : B -> B -> Prop) R
    (c1 c2 : M A) (k1 k2 : A -> M B) :
  related V R c1 c2 ->
  (forall a1 a2, V a1 a2 -> related V' R (k1 a1) (k2 a2)) ->
  related V' R (bind c1 k1) (bind c2 k2).
Proof.
  intros Hc Hk s1 s2 HR.
  destruct (Hc s1 s2 HR) as (a1 & a2 & t1 & t2 & H1 & H2 & HV & HR').
  destruct (Hk a1 a2 HV t1 t2 HR') as (b1 & b2 & u1 & u2 & K1 & K2 & HV' & HR'').
  exists b1, b2, u1, u2.
  rewrite (bind_Ok _ _ _ _ _ H1), (bind_Ok _ _ _ _ _ H2). auto.
Qed.

Lemma related_mono {A} (V V' : A -> A -> Prop) R (c1 c2 : M A) :
  related V R c1 c2 -> (forall a1 a2, V a1 a2 -> V' a1 a2) -> related V' R c1 c2.
Proof.
  intros Hc Himp s1 s2 HR.
  destruct (Hc s1 s2 HR) as (a1 & a2 & t1 & t2 & H1 & H2 & HV & HR').
  exists a1, a2, t1, t2. auto.
Qed.

(** The loop rule: the two loops go through the same values of the loop
    variables. *)
Lemma related_for_loop {St} R (Inv : St -> Prop) (measure : St -> nat)
    (cond : St -> bool) (body1 body2 : St -> M St) :
  (forall st, Inv st -> cond st = true ->
     related (fun a b => a = b /\ Inv a /\ (measure a < measure st)%nat) R
       (body1 st) (body2 st)) ->
  forall fuel st, Inv st -> (measure st <= fuel)%nat ->
    related (fun a b => a = b /\ Inv a) R
      (for_loop fuel cond body1 st) (for_loop fuel cond body2 st).
Proof.
  intros Hbody fuel. induction fuel as [| fuel IH]; intros st HI Hm; simpl.
  - destruct (cond st) eqn:Hc.
    + intros s1 s2 HR.
      destruct (Hbody st HI Hc s1 s2 HR) as (? & ? & ? & ? & _ & _ & (_ & _ & Hlt) & _).
      lia.
    + apply related_ret. auto.
  - destruct (cond st) eqn:Hc.
    + eapply related_bind; [exact (Hbody st HI Hc) |].
      intros a1 a2 (-> & HI' & Hlt). apply IH; [exact HI' | lia].
    + apply related_ret. auto.
Qed.

Lemma tables_ok_store n q x zs s :
  (2 <= x)%nat -> tables_ok n q s -> tables_ok n q (set_array x zs s).
Proof.
  intros Hx [HW HV]. unfold tables_ok, W, W_rev in *.
  rewrite !heap_set_array_ne by lia. auto.
Qed.

Section Versions.

Context (n q k : Z).
Hypothesis Hn : n = 2 ^ k.
Hypothesis Hk : 0 <= k <= 30.
Hypothesis Hq : 0 < q.

Variable x : ref.

Let R := residues n q x.

Lemma reduced_load i : 0 <= i < n -> related (reduced q) R (load x i) (load x i).
Proof.
  intros Hi s1 s2 (ys & H1 & H2 & Hlen & Hx & Ht1 & Ht2).
  destruct (index_Some ys i ltac:(lia)) as [v Hv].
  exists v, (v mod q), s1, s2.
  split; [exact (load_Ok _ _ _ _ _ H1 Hv) |].
  split.
  - apply (load_Ok _ _ _ _ _ H2). unfold index in *.
    destruct (0 <=? i); [| discriminate].
    rewrite list_lookup_fmap, Hv. reflexivity.
  - split; [reflexivity |]. exists ys. auto 10.
Qed.

Lemma equal_load_W i : 0 <= i < n -> related eq R (load W i) (load W i).
Proof.
  intros Hi s1 s2 HR. pose proof HR as (ys & _ & _ & _ & _ & [HW1 _] & [HW2 _]).
  destruct (index_Some (W_init n q) i) as [w Hw]; [rewrite length_W_init; lia |].
  exists w, w, s1, s2.
  rewrite (load_Ok _ _ _ _ _ HW1 Hw), (load_Ok _ _ _ _ _ HW2 Hw). auto.
Qed.

Lemma equal_load_W_rev i : 0 <= i < n -> related eq R (load W_rev i) (load W_rev i).
Proof.
  intros Hi s1 s2 HR. pose proof HR as (ys & _ & _ & _ & _ & [_ HV1] & [_ HV2]).
  destruct (index_Some (W_rev_init n q) i) as [w Hw]; [rewrite length_W_rev_init; lia |].
  exists w, w, s1, s2.
  rewrite (load_Ok _ _ _ _ _ HV1 Hw), (load_Ok _ _ _ _ _ HV2 Hw). auto.
Qed.

Lemma reduced_store i v1 v2 :
  0 <= i < n -> reduced q v1 v2 ->
  related (fun _ _ => True) R (store x i v1) (store x i v2).
Proof.
  intros Hi Hv s1 s2 (ys & H1 & H2 & Hlen & Hx & Ht1 & Ht2).
  exists tt, tt, (set_array x (<[Z.to_nat i := v1]> ys) s1),
    (set_array x (<[Z.to_nat i := v2]> (map (fun v => v mod q) ys)) s2).
  split; [apply store_Ok; [exact H1 | lia] |].
  split; [apply store_Ok; [exact H2 | rewrite length_map; lia] |].
  split; [exact I |].
  exists (<[Z.to_nat i := v1]> ys).
  split; [apply heap_set_array_eq; eapply lookup_lt_Some; exact H1 |].
  split.
  { rewrite heap_set_array_eq by (eapply lookup_lt_Some; exact H2).
    f_equal. rewrite Hv. symmetry. apply (list_fmap_insert (fun v => v mod q)). }
  split; [rewrite length_insert; exact Hlen |].
  split; [exact Hx |].
  split; now apply tables_ok_store.
Qed.

(** The two inner loops of a pass. *)
Lemma columns_related (m step : Z) (butterfly1 butterfly2 : Z -> Z -> M Z) :
  pass n m step ->
  (forall index i,
      0 <= index < n -> 0 <= i -> i + m < n ->
      related (fun a b => a = b /\ a = i + 2 * m) R
        (butterfly1 index i) (butterfly2 index i)) ->
  related (fun _ _ => True) R
    (for_loop (fuel n) (fun '(j, index) => j <? m)
       (fun '(j, index) =>
          for_loop (fuel n) (fun i => i <? n) (butterfly1 index) j ;;
          ret (j + 1, @mod_ BigInt.arith (index + (n - step)) n))
       (0, 0))
    (for_loop (fuel n) (fun '(j, index) => j <? m)
       (fun '(j, index) =>
          for_loop (fuel n) (fun i => i <? n) (butterfly2 index) j ;;
          ret (j + 1, @mod_ Native.arith (index + (n - step)) n))
       (0, 0)).
Proof.
  intros Hpass Hfly.
  destruct (pass_bounds n k Hn Hk _ _ Hpass) as (Hm30 & Hs30 & Hsn).
  destruct Hpass as (Hm & Hs & Hprod).
  pose proof (n_pos n k Hn Hk) as Hpos.
  eapply related_mono.
  - apply (related_for_loop R
             (fun '(j, index) => 0 <= j <= m /\ 0 <= index < n)
             (fun '(j, _) => Z.to_nat (m - j))).
    + intros [j index] (Hj & Hidx) Hcond. apply Z.ltb_lt in Hcond.
      eapply related_bind.
      * apply (related_for_loop R
                 (fun i => exists t, 0 <= t /\ i = j + 2 * m * t)
                 (fun i => Z.to_nat (n - i))).
        -- intros i (t & Ht & ->) Hi. apply Z.ltb_lt in Hi.
           assert (Hlt : t < step) by nia.
           eapply related_mono.
           ++ apply Hfly; [lia | nia | nia].
           ++ intros i1 i2 (-> & ->). split; [reflexivity |]. split.
              ** exists (t + 1). split; lia.
              ** nia.
        -- exists 0. split; lia.
        -- unfold fuel. lia.
      * intros i1 i2 _. apply related_ret.
        rewrite index_same by lia. split; [reflexivity |].
        split; [| lia]. split; [lia |].
        apply (@mod_index BigInt.arith BigInt_laws); lia.
    + split; lia.
    + unfold fuel. nia.
  - auto.
Qed.

Lemma fftForward_related :
  related (fun _ _ => True) R
    (@fftForward n q BigInt.arith x) (@fftForward n q Native.arith x).
Proof.
  unfold fftForward.
  eapply related_bind; [| intros ? ? _; now apply related_ret].
  apply (related_for_loop R
           (fun '(m, step) => forward_pass n k m step)
           (fun '(m, _) => Z.to_nat m)).
  - intros [m step] Hfp Hcond. apply Z.leb_le in Hcond.
    destruct (forward_pass_next n k Hn Hk m step Hfp Hcond) as [Hpass Hnext].
    destruct (pass_bounds n k Hn Hk _ _ Hpass) as (Hm30 & Hs30 & Hsn).
    pose proof Hpass as (Hm & Hs & Hprod).
    eapply related_bind.
    + apply (columns_related m step); [exact Hpass |].
      intros index i Hidx Hi Him.
      eapply related_bind; [apply reduced_load; lia | intros a1 a2 Ha].
      eapply related_bind; [apply reduced_load; lia | intros b1 b2 Hb].
      eapply related_bind; [apply reduced_load; lia | intros a1' a2' Ha'].
      eapply related_bind; [apply reduced_load; lia | intros b1' b2' Hb'].
      eapply related_bind; [apply equal_load_W; lia | intros w ? <-].
      eapply related_bind;
        [apply reduced_store; [lia | now apply add_reduced] | intros _ _ _].
      eapply related_bind;
        [apply reduced_store;
           [lia | apply mul_reduced_table; [exact Hq | now apply sub_reduced]]
        | intros _ _ _].
      apply related_ret. rewrite shl_1 by lia. split; reflexivity.
    + intros ? ? _. apply related_ret.
      split; [reflexivity |]. split; [exact Hnext |].
      rewrite shr_1 by lia.
      assert (m / 2 < m) by (apply Z.div_lt; lia).
      assert (0 <= m / 2) by (apply Z.div_pos; lia). lia.
  - apply forward_pass_init; assumption.
  - pose proof (n_bound n k Hn Hk). pose proof (n_pos n k Hn Hk).
    rewrite shr_1 by lia. unfold fuel.
    assert (n / 2 <= n) by (apply Z.div_le_upper_bound; lia). lia.
Qed.

Lemma fftBackward_related :
  related (fun _ _ => True) R
    (@fftBackward n q BigInt.arith x) (@fftBackward n q Native.arith x).
Proof.
  unfold fftBackward.
  eapply related_bind; [| intros ? ? _; now apply related_ret].
  apply (related_for_loop R
           (fun '(m, step) => backward_pass k m step)
           (fun '(m, _) => Z.to_nat (n - m))).
  - intros [m step] Hbp Hcond. apply Z.ltb_lt in Hcond.
    destruct (backward_pass_next n k Hn Hk m step Hbp Hcond) as [Hpass Hnext].
    destruct (pass_bounds n k Hn Hk _ _ Hpass) as (Hm30 & Hs30 & Hsn).
    pose proof Hpass as (Hm & Hs & Hprod).
    eapply related_bind.
    + apply (columns_related m step); [exact Hpass |].
      intros index i Hidx Hi Him.
      eapply related_bind; [apply reduced_load; lia | intros t0 t0' Ht0].
      eapply related_bind; [apply reduced_load; lia | intros b1 b2 Hb].
      eapply related_bind; [apply equal_load_W_rev; lia | intros w ? <-].
      pose proof (mul_reduced_table q b1 b2 w Hq Hb) as Ht1.
      eapply related_bind;
        [apply reduced_store; [lia | now apply add_reduced] | intros _ _ _].
      eapply related_bind;
        [apply reduced_store; [lia | now apply sub_reduced] | intros _ _ _].
      apply related_ret. rewrite shl_1 by lia. split; reflexivity.
    + intros ? ? _. apply related_ret.
      split; [reflexivity |]. split; [exact Hnext |].
      rewrite shl_1 by lia. lia.
  - apply backward_pass_init; assumption.
  - unfold fuel. lia.
Qed.

End Versions.

Lemma residues_scratch n q xs :
  Z.of_nat (length xs) = n ->
  residues n q 2%nat (scratch n q xs) (scratch n q (map (fun v => v mod q) xs)).
Proof.
  intros Hlen. exists xs. unfold scratch. simpl.
  split; [reflexivity |]. split; [reflexivity |]. split; [exact Hlen |].
  split; [lia |]. split; split; reflexivity.
Qed.

(** The transform of the later version, on the residues of an array, gives
    the residues of what the first version computes. *)
Lemma forward_reduced n q k xs :
  n = 2 ^ k -> 0 <= k <= 30 -> 0 < q -> Z.of_nat (length xs) = n ->
  exists ys,
    @forward n q BigInt.arith xs = Some ys /\
    @forward n q Native.arith (map (fun v => v mod q) xs) =
      Some (map (fun v => v mod q) ys).
Proof.
  intros Hn Hk Hq Hlen.
  destruct (fftForward_related n q k Hn Hk Hq 2%nat _ _ (residues_scratch n q xs Hlen))
    as ([] & [] & t1 & t2 & H1 & H2 & _ & (ys & Hy1 & Hy2 & _)).
  exists ys. unfold forward. rewrite H1, H2. auto.
Qed.

Lemma backward_reduced n q k xs :
  n = 2 ^ k -> 0 <= k <= 30 -> 0 < q -> Z.of_nat (length xs) = n ->
  exists ys,
    @backward n q BigInt.arith xs = Some ys /\
    @backward n q Native.arith (map (fun v => v mod q) xs) =
      Some (map (fun v => v mod q) ys).
Proof.
  intros Hn Hk Hq Hlen.
  destruct (fftBackward_related n q k Hn Hk Hq 2%nat _ _ (residues_scratch n q xs Hlen))
    as ([] & [] & t1 & t2 & H1 & H2 & _ & (ys & Hy1 & Hy2 & _)).
  exists ys. unfold backward. rewrite H1, H2. auto.
Qed.

(** ** The two versions compute the same residues *)

(** X16. The later version of the transforms, with the native helpers,
    computes the residues in [[0, q)] of what the first version computes
    with the big-integer helpers: on the residues of an array of length
    [n], [fftForward] and [fftBackward] give the residues of the first
    version's outcome.  The change of helpers changes representatives,
    never a value modulo [q].  The modulus is at most [2^26], where the
    native products of residues are exact. *)
Theorem versions_agree_modulo_q (n q k : Z) (xs : list Z) :
  n = 2 ^ k -> 0 <= k <= 30 -> 0 < q <= 2 ^ 26 -> Z.of_nat (length xs) = n ->
  (exists ys,
     @forward n q BigInt.arith xs = Some ys /\
     @forward n q Native.arith (map (fun v => v mod q) xs) =
       Some (map (fun v => v mod q) ys)) /\
  (exists zs,
     @backward n q BigInt.arith xs = Some zs /\
     @backward n q Native.arith (map (fun v => v mod q) xs) =
       Some (map (fun v => v mod q) zs)).
Proof.
  intros Hn Hk [Hq _] Hlen. split.
  - now apply (forward_reduced n q k).
  - now apply (backward_reduced n q k).
Qed.

Lemma versions_agree_modulo_q_witness :
  (exists ys,
     @forward 4 17 BigInt.arith [1; 2; 3; 4] = Some ys /\
     @forward 4 17 Native.arith (map (fun v => v mod 17) [1; 2; 3; 4]) =
       Some (map (fun v => v mod 17) ys)) /\
  (exists zs,
     @backward 4 17 BigInt.arith [1; 2; 3; 4] = Some zs /\
     @backward 4 17 Native.arith (map (fun v => v mod 17) [1; 2; 3; 4]) =
       Some (map (fun v => v mod 17) zs)).
Proof.
  apply (versions_agree_modulo_q 4 17 2 [1; 2; 3; 4]).
  - reflexivity.
  - lia.
  - lia.
  - reflexivity.
Defined.

(** X17. The same for a whole exchange: with the same draws, all in
    [[0, q)], the sender's and the receiver's secret of the later version
    are the residues of the two secrets of the first version. *)
Theorem exchange_versions (n q k : Z) (random : nat -> Z) (s : state) :
  n = 2 ^ k -> 0 <= k <= 30 -> 0 < q <= 2 ^ 26 ->
  tables_ok n q s -> (forall i, 0 <= random i < q) ->
  exists sender receiver s1 s2,
    @exchange n q BigInt.arith random s = Ok (sender, receiver) s1 /\
    @exchange n q Native.arith random s =
      Ok (map (fun v => v mod q) sender, map (fun v => v mod q) receiver) s2.
Proof.
  intros Hn Hk [Hq _] Ht Hrandom.
  destruct (exchange_run n q k BigInt.arith BigInt_laws random s Hn Hk Ht)
    as (pub1 & c1 & out1 & s1 & Hpub1 & Hc1 & Hout1 & Hrun1 & _ & Hpublen & Hclen).
  destruct (exchange_run n q k Native.arith Native_laws random s Hn Hk Ht)
    as (pub2 & c2 & out2 & s2 & Hpub2 & Hc2 & Hout2 & Hrun2 & _).
  set (priv := sample random s n) in *.
  set (r := sample random (State (heap s) (drawn s + Z.to_nat n)) n) in *.
  assert (Hpriv : map (fun v => v mod q) priv = priv).
  { apply residues_of_range, sample_Val. exact Hrandom. }
  assert (Hr : map (fun v => v mod q) r = r).
  { apply residues_of_range, sample_Val. exact Hrandom. }
  assert (Hprivlen : Z.of_nat (length priv) = n) by apply (length_sample n k Hn Hk).
  assert (Hrlen : Z.of_nat (length r) = n) by apply (length_sample n k Hn Hk).
  destruct (forward_reduced n q k priv Hn Hk Hq Hprivlen) as (pub & Hp1 & Hp2).
  destruct (forward_reduced n q k r Hn Hk Hq Hrlen) as (c & Hcc1 & Hcc2).
  rewrite Hpriv, Hpub2 in Hp2. rewrite Hpub1 in Hp1.
  rewrite Hr, Hc2 in Hcc2. rewrite Hc1 in Hcc1.
  injection Hp1 as <-. injection Hp2 as ->.
  injection Hcc1 as <-. injection Hcc2 as ->.
  destruct (backward_reduced n q k (@products BigInt.arith q c1 priv) Hn Hk Hq)
    as (out & Ho1 & Ho2).
  { rewrite length_products; lia. }
  rewrite <- products_reduced, Hpriv, Hout2 in Ho2 by exact Hq.
  rewrite Hout1 in Ho1. injection Ho1 as <-. injection Ho2 as ->.
  exists (@products BigInt.arith q r pub1), out1, s1, s2.
  split; [exact Hrun1 |].
  rewrite <- products_reduced, Hr by exact Hq. exact Hrun2.
Qed.

Lemma exchange_versions_witness :
  exists sender receiver s1 s2,
    @exchange 4 17 BigInt.arith (fun _ => 1) (State [W_init 4 17; W_rev_init 4 17] 0) =
      Ok (sender, receiver) s1 /\
    @exchange 4 17 Native.arith (fun _ => 1) (State [W_init 4 17; W_rev_init 4 17] 0) =
      Ok (map (fun v => v mod 17) sender, map (fun v => v mod 17) receiver) s2.
Proof.
  apply (exchange_versions 4 17 2 (fun _ => 1) (State [W_init 4 17; W_rev_init 4 17] 0)).
  - reflexivity.
  - lia.
  - lia.
  - split; reflexivity.
  - intros i. lia.
Defined.

(** ** The operations only add arrays *)

(** X18. Whatever the parameters and the store, and whether they end
    normally or stop at a fault, [generateKeyPair], [encapsulate] and
    [decapsulate] leave every array that existed before the call as it
    was; the references they return are to arrays created by the call. *)
Theorem operations_only_allocate (n q : Z) (arith : ModArith) (random : nat -> Z)
    (a b : ref) (s : state) (r : ref) :
  (r < length (heap s))%nat ->
  heap (state_of (generateKeyPair n q random s)) !! r = heap s !! r /\
  heap (state_of (encapsulate n q random a s)) !! r = heap s !! r /\
  heap (state_of (decapsulate n q a b s)) !! r = heap s !! r /\
  (forall p s', generateKeyPair n q random s = Ok p s' ->
     (r < fst p)%nat /\ (r < snd p)%nat) /\
  (forall p s', encapsulate n q random a s = Ok p s' ->
     (r < fst p)%nat /\ (r < snd p)%nat) /\
  (forall c s', decapsulate n q a b s = Ok c s' -> (r < c)%nat).
Proof.
  intros Hr.
  destruct (@frame_generateKeyPair n q arith (length (heap s)) random s (le_n _))
    as (_ & Hg & Hgp).
  destruct (@frame_encapsulate n q arith (length (heap s)) random a s (le_n _))
    as (_ & He & Hep).
  destruct (@frame_decapsulate n q arith (length (heap s)) a b s (le_n _))
    as (_ & Hd & Hdp).
  split; [now apply Hg |]. split; [now apply He |]. split; [now apply Hd |].
  split; [| split].
  - intros p s' Hrun. destruct (Hgp p s' Hrun). lia.
  - intros p s' Hrun. destruct (Hep p s' Hrun). lia.
  - intros c s' Hrun. specialize (Hdp c s' Hrun). simpl in Hdp. lia.
Qed.

Lemma operations_only_allocate_witness :
  heap (state_of (@generateKeyPair 4 17 Native.arith (fun _ => 1) (State [[1]; [2]] 0)))
    !! 0%nat = heap (State [[1]; [2]] 0) !! 0%nat /\
  heap (state_of (@encapsulate 4 17 Native.arith (fun _ => 1) 0%nat (State [[1]; [2]] 0)))
    !! 0%nat = heap (State [[1]; [2]] 0) !! 0%nat /\
  heap (state_of (@decapsulate 4 17 Native.arith 0%nat 1%nat (State [[1]; [2]] 0)))
    !! 0%nat = heap (State [[1]; [2]] 0) !! 0%nat /\
  (forall p s', @generateKeyPair 4 17 Native.arith (fun _ => 1) (State [[1]; [2]] 0) = Ok p s' ->
     (0 < fst p)%nat /\ (0 < snd p)%nat) /\
  (forall p s', @encapsulate 4 17 Native.arith (fun _ => 1) 0%nat (State [[1]; [2]] 0) = Ok p s' ->
     (0 < fst p)%nat /\ (0 < snd p)%nat) /\
  (forall c s', @decapsulate 4 17 Native.arith 0%nat 1%nat (State [[1]; [2]] 0) = Ok c s' ->
     (0 < c)%nat).
Proof.
  apply (operations_only_allocate 4 17 Native.arith (fun _ => 1) 0%nat 1%nat
           (State [[1]; [2]] 0) 0%nat).
  simpl. lia.
Defined.
